(** * A shallow embedding of gtsam's CuSparseSolver and Sphere2

    Sources embedded here:
    - [gtsam/geometry/Sphere2.h]       (the constructors of [Sphere2]);
    - [gtsam/linear/CuSparseSolver.cpp] (the device upload
      [EigenSparseToCuSparseTranspose], the status checks and
      [CuSparseSolver::solve], in the [GTSAM_USE_CUSPARSE] build).

    Conventions.
    - A C++ [double] is read in two ways.  In [Geometry] and [Eigen] it
      is idealised as a real number ([R]): rounding, infinities and NaN
      are outside that reading, and the one place where the source can
      produce a non-finite value, a division by zero, is kept visible:
      such a division has no result ([None]).  In [Double] the
      constructors of [Sphere2] are read on binary64 numbers, as the
      machine computes them, with rounding, overflow and underflow.
    - [size_t] is a 64-bit unsigned integer: sums wrap around modulo [2^64].
    - CUDA, cuSOLVER, cuSPARSE and Eigen are external libraries.  Their
      calls are modelled by what their documentation promises; the status
      every device call returns is supplied by a [Backend] the theorems
      quantify over. *)

From Stdlib Require Import PrimFloat.
From Stdlib Require Import Reals Lra ZArith String DecimalString DecimalZ.
From stdpp Require Import gmap list strings.

Local Open Scope Z_scope.

(* ===================================================================== *)
(** * Geometry: [Sphere2]                                                 *)
(* ===================================================================== *)

Module Geometry.

(** Modelled from the spec: [gtsam::Point3] (gtsam/geometry/Point3.h) is
    not among the sources.  The three members [Sphere2] uses are taken
    with the meaning their names and the claims give them: the
    constructor from three coordinates, [norm()] as the Euclidean norm,
    and [operator/] as the coordinate-wise division by a scalar.
    Division of a [double] by zero yields no finite number, so
    [Point3_div] has no result for a zero divisor. *)
Record Point3 : Type := mkPoint3 { px : R; py : R; pz : R }.

Definition norm (p : Point3) : R :=
  sqrt (px p * px p + py p * py p + pz p * pz p).

Definition Point3_div (p : Point3) (s : R) : option Point3 :=
  if Req_dec_T s 0%R then None
  else Some (mkPoint3 (px p / s) (py p / s) (pz p / s)).

(** [struct Sphere2 { gtsam::Point3 p_; ... }] *)
Record Sphere2 : Type := mkSphere2 { p_ : Point3 }.

(** [Sphere2() : p_(gtsam::Point3(1.0, 0.0, 0.0)) {}] *)
Definition Sphere2_default : Sphere2 :=
  mkSphere2 (mkPoint3 1 0 0).

(** [Sphere2(const gtsam::Point3& p) { p_ = p / p.norm(); }] *)
Definition Sphere2_of_Point3 (p : Point3) : option Sphere2 :=
  match Point3_div p (norm p) with
  | Some q => Some (mkSphere2 q)
  | None => None
  end.

(** [Sphere2(const Sphere2& s) { p_ = s.p_ / s.p_.norm(); }] *)
Definition Sphere2_copy (s : Sphere2) : option Sphere2 :=
  match Point3_div (p_ s) (norm (p_ s)) with
  | Some q => Some (mkSphere2 q)
  | None => None
  end.

(** [inline static size_t Dim() { return 2; }] and [dim()] *)
Definition Dim : N := 2%N.
Definition dim (_ : Sphere2) : N := 2%N.


End Geometry.

(** The same constructors on binary64 numbers. *)
Module Double.

(** Modelled from the spec: [gtsam::Point3] is not among the sources.
    [norm()] is taken as the square root of the sum of the squares of
    the coordinates, each operation rounded to binary64, and [operator/]
    as the coordinate-wise binary64 division, which has a result for
    every divisor (an infinity or a NaN where the real quotient does not
    exist). *)
Record Point3 : Type := mkPoint3 { px : float; py : float; pz : float }.

Definition norm (p : Point3) : float :=
  PrimFloat.sqrt (px p * px p + py p * py p + pz p * pz p).

Definition Point3_div (p : Point3) (s : float) : Point3 :=
  mkPoint3 (px p / s) (py p / s) (pz p / s).

Record Sphere2 : Type := mkSphere2 { p_ : Point3 }.

(** [Sphere2() : p_(gtsam::Point3(1.0, 0.0, 0.0)) {}] *)
Definition Sphere2_default : Sphere2 :=
  mkSphere2 (mkPoint3 1 0 0).

(** [Sphere2(const gtsam::Point3& p) { p_ = p / p.norm(); }] *)
Definition Sphere2_of_Point3 (p : Point3) : Sphere2 :=
  mkSphere2 (Point3_div p (norm p)).

(** [Sphere2(const Sphere2& s) { p_ = s.p_ / s.p_.norm(); }] *)
Definition Sphere2_copy (s : Sphere2) : Sphere2 :=
  mkSphere2 (Point3_div (p_ s) (norm (p_ s))).

End Double.

(* ===================================================================== *)
(** * Eigen: the matrix operations [solve] calls                          *)
(* ===================================================================== *)

Module Eigen.

(** A matrix is given by its shape and its coefficients.  Which
    coefficients a sparse matrix stores explicitly is a matter of Eigen's
    storage and is not modelled; [makeCompressed()] changes storage only. *)
Record Matrix : Type := mkMatrix {
  rows : nat;
  cols : nat;
  coeff : nat -> nat -> R
}.

(** The sum of [f k * g k] for [k < n]. *)
Definition dot (n : nat) (f g : nat -> R) : R :=
  foldr (fun k acc => (f k * g k + acc)%R) 0%R (seq 0 n).

(** [M.block(i0, j0, p, q)] *)
Definition block (M : Matrix) (i0 j0 p q : nat) : Matrix :=
  mkMatrix p q (fun i j => coeff M (i0 + i) (j0 + j)).

(** [M.col(j)] *)
Definition col (M : Matrix) (j : nat) : Matrix :=
  mkMatrix (rows M) 1 (fun i _ => coeff M i j).

(** [M.transpose()] *)
Definition transpose (M : Matrix) : Matrix :=
  mkMatrix (cols M) (rows M) (fun i j => coeff M j i).

(** [P * Q] *)
Definition mul (P Q : Matrix) : Matrix :=
  mkMatrix (rows P) (cols Q)
    (fun i j => dot (cols P) (fun k => coeff P i k) (fun k => coeff Q k j)).

(** [SparseMatrix<double> M(p, q)]: the zero matrix of that shape. *)
Definition zero (p q : nat) : Matrix :=
  mkMatrix p q (fun _ _ => 0%R).

(** [M.triangularView<Eigen::Upper>()] *)
Definition upper (M : Matrix) : Matrix :=
  mkMatrix (rows M) (cols M)
    (fun i j => if (i <=? j)%nat then coeff M i j else 0%R).

(** [M.selfadjointView<Eigen::Upper>().rankUpdate(u, alpha)]: Eigen
    forms [tmp = u * u.adjoint()] and adds [alpha] times the upper
    triangle of [tmp] to [M]. *)
Definition rankUpdate_Upper (M u : Matrix) (alpha : R) : Matrix :=
  let tmp := upper (mul u (transpose u)) in
  mkMatrix (rows M) (cols M)
    (fun i j => (coeff M i j + alpha * coeff tmp i j)%R).

End Eigen.

(* ===================================================================== *)
(** * The factor graph, as [solve] sees it                                *)
(* ===================================================================== *)

(** [typedef std::uint64_t Key]. *)
Abbreviation Key := N.

(** A [GaussianFactor], through the interface [solve] uses: the keys
    between [begin()] and [end()], and [getDim(it)] for the key at
    position [it]. *)
Record GaussianFactor : Type := mkFactor {
  keys : list Key;
  getDim : nat -> N
}.

(** A [GaussianFactorGraph] is a sequence of shared pointers to factors;
    [None] is a null pointer. *)
Abbreviation GaussianFactorGraph := (list (option GaussianFactor)).

(** An [Ordering] is a sequence of keys. *)
Abbreviation Ordering := (list Key).

(** A dense [Vector] of doubles. *)
Abbreviation Vector := (list R).

(** Modelled from the spec: [VectorValues] (gtsam/linear/VectorValues.h)
    is not among the sources.  The spec calls it the result mapping, from
    variable identifier to solution segment, and [insert] adds one entry. *)
Abbreviation VectorValues := (gmap Key Vector).

Inductive CuSparseSolverType : Type := QR | CHOLESKY.

(** The two data members of [CuSparseSolver]. *)
Record CuSparseSolver : Type := mkSolver {
  solverType : CuSparseSolverType;
  ordering : Ordering
}.

(** [CuSparseSolver::CuSparseSolver(type, ordering)] *)
Definition CuSparseSolver_new (type : CuSparseSolverType) (o : Ordering)
  : CuSparseSolver :=
  mkSolver type o.

Definition isIterative (_ : CuSparseSolver) : bool := false.
Definition isSequential (_ : CuSparseSolver) : bool := false.

(* ===================================================================== *)
(** * Exceptions, the machine state and the device                        *)
(* ===================================================================== *)

(** The exceptions the source throws. *)
Inductive exception : Type :=
| runtime_error (what : string)        (* std::runtime_error *)
| invalid_argument (what : string)     (* std::invalid_argument *)
| std_exception.                       (* std::exception() *)

(** How a call ends: it returns, it throws, or an [eigen_assert] fails. *)
Inductive outcome (A : Type) : Type :=
| Returns (a : A)
| Throws (e : exception)
| Aborts.
Arguments Returns {A} a.
Arguments Throws {A} e.
Arguments Aborts {A}.

(** The pointer variables of [solve] whose address is taken. *)
Inductive HostVar : Type := AtA_row | AtA_col | AtA_val | x_gpu | b_gpu.

Definition HostVar_eqb (v w : HostVar) : bool :=
  match v, w with
  | AtA_row, AtA_row | AtA_col, AtA_col | AtA_val, AtA_val
  | x_gpu, x_gpu | b_gpu, b_gpu => true
  | _, _ => false
  end.

(** A pointer value: null, the address of a host pointer variable (what
    [&AtA_row], of type [int **], is), or an address in device memory. *)
Inductive pointer : Type :=
| NULL
| host (v : HostVar)
| dev (a : N).

Inductive cudaMemcpyKind : Type :=
| cudaMemcpyHostToDevice
| cudaMemcpyDeviceToHost.

(** What the external libraries were asked, in order, and what they
    answered. *)
Inductive Event : Type :=
| ev_cusolverSpCreate (status : Z)
| ev_cusparseCreateMatDescr (status : Z)
| ev_cusparseSetMatType (status : Z)
| ev_cudaMalloc (devPtr : HostVar) (size : Z) (status : Z)
| ev_cudaFree (devPtr : pointer) (status : Z)
| ev_cudaMemcpy (device_side : pointer) (count : Z) (kind : cudaMemcpyKind)
                (status : Z)
| ev_cusolverSpDcsrlsvchol (m nnz : Z) (status : Z)
| ev_cout (AtA_row_value AtA_col_value : pointer) (AtA_rows AtA_cols : nat).

(** The state a call of [solve] runs in. *)
Record Machine : Type := mkMachine {
  this : CuSparseSolver;         (* the solver object, [*this] *)
  heap : gmap N Z;               (* live device allocations: address, bytes *)
  stack : HostVar -> pointer;    (* the values of the pointer variables *)
  calls : nat;                   (* device calls answered so far *)
  log : list Event               (* most recent event first *)
}.

(** What lies outside the source: the build, the assembler of
    [SparseEigenSolver], Eigen's storage accounting, and the answers of
    the device. *)
Record Environment : Type := mkEnvironment {
  FILE : string;                         (* [__FILE__] *)
  sparseJacobianEigen : GaussianFactorGraph -> Ordering -> Eigen.Matrix;
  nonZeros : Eigen.Matrix -> Z;          (* [mat.nonZeros()] *)
  status : nat -> Z;                     (* status of the n-th device call *)
  chol_singularity : Z;                  (* written to [&singularity] *)
  chol_x : nat -> R                      (* left in [x_gpu] by the solve *)
}.

(** [cudaSuccess], [CUSOLVER_STATUS_SUCCESS] and [CUSPARSE_STATUS_SUCCESS]
    are all zero; [cudaErrorInvalidValue] is what [cudaFree] answers for a
    pointer that no [cudaMalloc] returned. *)
Definition cudaSuccess : Z := 0.
Definition CUSOLVER_STATUS_SUCCESS : Z := 0.
Definition CUSPARSE_STATUS_SUCCESS : Z := 0.
Definition cudaErrorInvalidValue : Z := 1.

Definition sizeof_int : Z := 4.
Definition sizeof_double : Z := 8.

(** Conversion to [int] (32 bits, two's complement) and products in
    [size_t] (64 bits, unsigned). *)
Definition to_int (z : Z) : Z := (z + 2 ^ 31) mod 2 ^ 32 - 2 ^ 31.
Definition size_mul (a b : Z) : Z := (a * b) mod 2 ^ 64.

(** [std::to_string] on an integer. *)
Definition to_string (z : Z) : string := NilZero.string_of_int (Z.to_int z).

(** A computation: state in, outcome and state out. *)
Definition M (A : Type) : Type := Machine -> outcome A * Machine.

#[global] Instance M_ret : MRet M := fun A a m => (Returns a, m).

#[global] Instance M_bind : MBind M := fun A B f c m =>
  match c m with
  | (Returns a, m') => f a m'
  | (Throws e, m') => (Throws e, m')
  | (Aborts, m') => (Aborts, m')
  end.

Definition throw {A : Type} (e : exception) : M A := fun m => (Throws e, m).
Definition abort {A : Type} : M A := fun m => (Aborts, m).
Definition get_this : M CuSparseSolver := fun m => (Returns (this m), m).

Definition record (e : Event) (m : Machine) : Machine :=
  mkMachine (this m) (heap m) (stack m) (calls m) (e :: log m).

Definition answered (m : Machine) : Machine :=
  mkMachine (this m) (heap m) (stack m) (S (calls m)) (log m).

Definition set_heap (h : gmap N Z) (m : Machine) : Machine :=
  mkMachine (this m) h (stack m) (calls m) (log m).

Definition set_var (v : HostVar) (p : pointer) (m : Machine) : Machine :=
  mkMachine (this m) (heap m)
    (fun w => if HostVar_eqb w v then p else stack m w)
    (calls m) (log m).

(** [T *v(NULL);] *)
Definition declare (v : HostVar) : M unit :=
  fun m => (Returns tt, set_var v NULL m).

(** The value of a pointer variable. *)
Definition read (v : HostVar) : M pointer :=
  fun m => (Returns (stack m v), m).

(* ===================================================================== *)
(** * The device calls                                                    *)
(* ===================================================================== *)

(** [cudaFree(devPtr)]: releases the allocation that starts at [devPtr].
    A null pointer is accepted and nothing happens; any other pointer
    that is not a live device allocation (in particular the address of a
    host variable) is answered with [cudaErrorInvalidValue] and nothing
    is released. *)
Definition cudaFree (devPtr : pointer) : M Z :=
  fun m =>
    match devPtr with
    | NULL => (Returns cudaSuccess, record (ev_cudaFree devPtr cudaSuccess) m)
    | dev a =>
        match heap m !! a with
        | Some _ =>
            (Returns cudaSuccess,
             record (ev_cudaFree devPtr cudaSuccess)
                    (set_heap (delete a (heap m)) m))
        | None =>
            (Returns cudaErrorInvalidValue,
             record (ev_cudaFree devPtr cudaErrorInvalidValue) m)
        end
    | host _ =>
        (Returns cudaErrorInvalidValue,
         record (ev_cudaFree devPtr cudaErrorInvalidValue) m)
    end.

Section Solver.

Variable E : Environment.

(** [#define ____LOCATION __FILE__ " : " S2(__LINE__)].  For an
    invocation that spans several lines, [line] is its first line. *)
Definition ____LOCATION (line : Z) : string :=
  FILE E +:+ " : " +:+ to_string line.

(** [cudaMalloc(devPtr, size)]: on success a fresh device allocation of
    [size] bytes, whose address is stored in [*devPtr]. *)
Definition cudaMalloc (devPtr : HostVar) (size : Z) : M Z :=
  fun m =>
    let code := status E (calls m) in
    let m := record (ev_cudaMalloc devPtr size code) (answered m) in
    if decide (code = cudaSuccess) then
      let a := fresh (dom (heap m)) in
      (Returns code,
       set_var devPtr (dev a) (set_heap (<[a := size]> (heap m)) m))
    else (Returns code, m).

(** [cudaMemcpy(dst, src, count, kind)]; [device_side] is the one of
    [dst] and [src] that points into device memory. *)
Definition cudaMemcpy (device_side : pointer) (count : Z)
    (kind : cudaMemcpyKind) : M Z :=
  fun m =>
    let code := status E (calls m) in
    (Returns code,
     record (ev_cudaMemcpy device_side count kind code) (answered m)).

Definition cusolverSpCreate : M Z :=
  fun m =>
    let code := status E (calls m) in
    (Returns code, record (ev_cusolverSpCreate code) (answered m)).

Definition cusparseCreateMatDescr : M Z :=
  fun m =>
    let code := status E (calls m) in
    (Returns code, record (ev_cusparseCreateMatDescr code) (answered m)).

Definition cusparseSetMatType : M Z :=
  fun m =>
    let code := status E (calls m) in
    (Returns code, record (ev_cusparseSetMatType code) (answered m)).

(** [cusolverSpDcsrlsvchol(handle, m, nnz, descrA, val, row, col, b, tol,
    reorder, x, &singularity)]: the status, and what [singularity] holds
    after the call. *)
Definition cusolverSpDcsrlsvchol (m nnz : Z) : M (Z * Z) :=
  fun st =>
    let code := status E (calls st) in
    (Returns (code, chol_singularity E),
     record (ev_cusolverSpDcsrlsvchol m nnz code) (answered st)).

(* ===================================================================== *)
(** * The status checks                                                   *)
(* ===================================================================== *)

Definition checkCUDAError (code : Z) (location : string) : M unit :=
  if decide (code ≠ cudaSuccess) then
    throw (runtime_error
      ("cudaMalloc error " +:+ to_string code +:+ " at " +:+ location))
  else mret tt.

Definition checkCuSolverError (code : Z) (location : string) : M unit :=
  if decide (code ≠ CUSOLVER_STATUS_SUCCESS) then
    throw (runtime_error
      ("cuSolver error " +:+ to_string code +:+ " at " +:+ location))
  else mret tt.

Definition checkCuSparseError (code : Z) (location : string) : M unit :=
  if decide (code ≠ CUSPARSE_STATUS_SUCCESS) then
    throw (runtime_error
      ("cuSparse error " +:+ to_string code +:+ " at " +:+ location))
  else mret tt.

(* ===================================================================== *)
(** * [EigenSparseToCuSparseTranspose]                                    *)
(* ===================================================================== *)

(** [row], [col] and [val] are the out-parameters, of type [int **],
    [int **] and [double **]: addresses of pointer variables of the
    caller.  [cudaFree(row)] is therefore called on [host row], while
    the buffer itself is [*row]. *)
Definition EigenSparseToCuSparseTranspose
    (mat : Eigen.Matrix) (row col val : HostVar) : M unit :=
  let num_non0 := to_int (nonZeros E mat) in
  let num_outer := to_int (Z.of_nat (Eigen.cols mat) + 1) in
  err ← cudaMalloc row (size_mul sizeof_int num_outer);
  if decide (err ≠ cudaSuccess) then
    throw (runtime_error
      ("cudaMalloc error: out of memory? trying to allocate "
         +:+ to_string err))
  else
  err_col ← cudaMalloc col (size_mul sizeof_int num_non0);
  if decide (err_col ≠ cudaSuccess) then
    cudaFree (host row);;
    throw (runtime_error "cudaMalloc error: out of memory?")
  else
  err_val ← cudaMalloc val (size_mul sizeof_double num_non0);
  if decide (err_val ≠ cudaSuccess) then
    cudaFree (host row);;
    cudaFree (host col);;
    throw (runtime_error "cudaMalloc error: out of memory?")
  else
  p_val ← read val;
  c ← cudaMemcpy p_val (size_mul num_non0 sizeof_double)
        cudaMemcpyHostToDevice;
  checkCUDAError c (____LOCATION 98);;
  p_row ← read row;
  c ← cudaMemcpy p_row (size_mul num_outer sizeof_int)
        cudaMemcpyHostToDevice;
  checkCUDAError c (____LOCATION 102);;
  p_col ← read col;
  c ← cudaMemcpy p_col (size_mul num_non0 sizeof_int)
        cudaMemcpyHostToDevice;
  checkCUDAError c (____LOCATION 105).

(* ===================================================================== *)
(** * [CuSparseSolver::solve]                                             *)
(* ===================================================================== *)

(** Lines 118-126, for [cols > 0]: [A], the dense [b] and [AtA]. *)
Definition normal_equations (Ab : Eigen.Matrix)
  : Eigen.Matrix * Eigen.Matrix * Eigen.Matrix :=
  let rows := Eigen.rows Ab in
  let cols := Eigen.cols Ab in
  let A := Eigen.block Ab 0 0 rows (cols - 1) in
  let At := Eigen.transpose A in
  let b := Eigen.mul At (Eigen.col Ab (cols - 1)) in
  let AtA :=
    Eigen.rankUpdate_Upper (Eigen.zero (Eigen.cols A) (Eigen.cols A)) At 1 in
  (A, b, AtA).

(** The value [m[key]] reads from a [std::map<Key, size_t>]: the value
    stored for [key], and zero for a key that is absent. *)
Definition value_at (m : gmap Key N) (key : Key) : N :=
  default 0%N (m !! key).

(** [m[key]] on a [std::map<Key, size_t>]: the value stored for [key];
    a key that is absent is first inserted with the value zero. *)
Definition subscript (m : gmap Key N) (key : Key) : N * gmap Key N :=
  match m !! key with
  | Some d => (d, m)
  | None => (0%N, <[key := 0%N]> m)
  end.

(** Lines 185-187: [for (it = factor->begin(); it != factor->end(); ++it)
    dims[*it] = factor->getDim(it);] with [it] the position reached and
    [ks] the keys from there on. *)
Fixpoint scan_keys (factor : GaussianFactor) (it : nat) (ks : list Key)
    (dims : gmap Key N) : gmap Key N :=
  match ks with
  | [] => dims
  | key :: ks' =>
      scan_keys factor (S it) ks' (<[key := getDim factor it]> dims)
  end.

(** Lines 181-188: the loop over the factors; null pointers are skipped. *)
Fixpoint scan_factors (gfg : GaussianFactorGraph) (dims : gmap Key N)
    : gmap Key N :=
  match gfg with
  | [] => dims
  | None :: rest => scan_factors rest dims
  | Some factor :: rest =>
      scan_factors rest (scan_keys factor 0 (keys factor) dims)
  end.

(** Addition in [size_t]. *)
Definition size_add (a b : N) : N := ((a + b) mod 2 ^ 64)%N.

(** Lines 195-199: [columnIndices[key] = currentColIndex;
    currentColIndex += dims[key];] for every key of the ordering.  The
    subscript on [dims] may grow [dims]. *)
Fixpoint column_loop (o : Ordering) (columnIndices dims : gmap Key N)
    (currentColIndex : N) : gmap Key N * gmap Key N :=
  match o with
  | [] => (columnIndices, dims)
  | key :: rest =>
      let columnIndices := <[key := currentColIndex]> columnIndices in
      let '(d, dims) := subscript dims key in
      column_loop rest columnIndices dims (size_add currentColIndex d)
  end.

(** [x.segment(start, n)]; Eigen asserts that the segment lies inside
    [x]. *)
Definition segment (x : Vector) (start n : N) : option Vector :=
  if decide (start + n ≤ N.of_nat (length x))%N then
    Some (take (N.to_nat n) (drop (N.to_nat start) x))
  else None.

(** Line 203: [vv.insert(keyDim.first,
    x.segment(columnIndices[keyDim.first], keyDim.second))].  Reading
    [columnIndices] at an absent key gives zero. *)
Definition insert_segment (x : Vector) (columnIndices : gmap Key N)
    (key : Key) (dim : N) (acc : option VectorValues)
    : option VectorValues :=
  match acc with
  | Some vv =>
      match segment x (value_at columnIndices key) dim with
      | Some s => Some (<[key := s]> vv)
      | None => None
      end
  | None => None
  end.

(** Lines 180-206: from the downloaded [x] to the result; [None] when a
    segment assertion fails.  The entries of [dims] are visited once
    each. *)
Definition remap (x : Vector) (gfg : GaussianFactorGraph) (o : Ordering)
    : option VectorValues :=
  let dims := scan_factors gfg ∅ in
  let '(columnIndices, dims) := column_loop o ∅ dims 0%N in
  map_fold (insert_segment x columnIndices) (Some ∅) dims.

(** Lines 130-171: the handles, the upload, the solve on the device, the
    download of [x] and the release of the five buffers.  Returns what
    [singularity] and [x] hold. *)
Definition device_solve (A b AtA : Eigen.Matrix) : M (Z * Vector) :=
  c ← cusolverSpCreate;
  checkCuSolverError c (____LOCATION 131);;
  c ← cusparseCreateMatDescr;
  checkCuSparseError c (____LOCATION 134);;
  c ← cusparseSetMatType;
  checkCuSparseError c (____LOCATION 135);;
  declare AtA_row;; declare AtA_col;; declare AtA_val;;
  EigenSparseToCuSparseTranspose AtA AtA_row AtA_col AtA_val;;
  declare x_gpu;; declare b_gpu;;
  let n := size_mul sizeof_double (Z.of_nat (Eigen.cols AtA)) in
  c ← cudaMalloc x_gpu n;
  checkCUDAError c (____LOCATION 144);;
  c ← cudaMalloc b_gpu n;
  checkCUDAError c (____LOCATION 145);;
  p_b ← read b_gpu;
  c ← cudaMemcpy p_b n cudaMemcpyHostToDevice;
  checkCUDAError c (____LOCATION 147);;
  p_row ← read AtA_row;
  p_col ← read AtA_col;
  (fun m => (Returns tt,
     record (ev_cout p_row p_col (Eigen.rows AtA) (Eigen.cols AtA)) m));;
  '(c, singularity) ← cusolverSpDcsrlsvchol
                        (Z.of_nat (Eigen.rows AtA)) (nonZeros E AtA);
  checkCuSolverError c (____LOCATION 158);;
  let x := map (chol_x E) (seq 0 (Eigen.cols A)) in
  p_x ← read x_gpu;
  c ← cudaMemcpy p_x (size_mul sizeof_double (Z.of_nat (Eigen.cols A)))
        cudaMemcpyDeviceToHost;
  checkCUDAError c (____LOCATION 164);;
  p ← read AtA_val; cudaFree p;;
  p ← read AtA_row; cudaFree p;;
  p ← read AtA_col; cudaFree p;;
  p ← read b_gpu; cudaFree p;;
  p ← read x_gpu; cudaFree p;;
  mret (singularity, x).

(** [VectorValues CuSparseSolver::solve(const GaussianFactorGraph &gfg)].
    [solverType] has the two values [QR] and [CHOLESKY], so the final
    [throw std::exception()] is not reached.  [block] with a negative
    number of columns fails Eigen's assertion.  The timing macros
    [gttic_] and [gttoc_] have no effect on the result and are left
    out. *)
Definition solve (gfg : GaussianFactorGraph) : M VectorValues :=
  self ← get_this;
  match solverType self with
  | QR => throw (invalid_argument "This solver does not support QR.")
  | CHOLESKY =>
      let Ab := sparseJacobianEigen E gfg (ordering self) in
      if decide (Eigen.cols Ab = 0)%nat then abort else
      let '(A, b, AtA) := normal_equations Ab in
      '(singularity, x) ← device_solve A b AtA;
      if decide (singularity ≠ -1) then
        throw (runtime_error
          ("ILS in CUDA Solver, singularity: " +:+ to_string singularity))
      else
      match remap x gfg (ordering self) with
      | Some vv => mret vv
      | None => abort
      end
  end.

(** The [solve] of the build without [GTSAM_USE_CUSPARSE] (the [#else]
    branch). *)
Definition solve_without_cusparse (gfg : GaussianFactorGraph)
    : M VectorValues :=
  throw (invalid_argument "This GTSAM is compiled without Cholmod support").

End Solver.

(* ===================================================================== *)
(** * Vocabulary of the statements                                        *)
(* ===================================================================== *)

(** Some factor of the graph touches [k]. *)
Definition referenced (gfg : GaussianFactorGraph) (k : Key) : Prop :=
  exists factor, Some factor ∈ gfg /\ k ∈ keys factor.

(** The result mapping [vv] has an entry for the variables some factor
    of [gfg] references, and for no other. *)
Definition only_referenced (gfg : GaussianFactorGraph) (vv : VectorValues)
    : Prop :=
  forall k, is_Some (vv !! k) <-> referenced gfg k.

(** The variable dimension map of a graph. *)
Definition dimensions (gfg : GaussianFactorGraph) : gmap Key N :=
  scan_factors gfg ∅.

(** The sum, without wrap-around, of the recorded dimensions of the keys
    of [o]; a key without a recorded dimension counts zero. *)
Definition total_columns (dims : gmap Key N) (o : Ordering) : N :=
  foldr (fun k acc => (value_at dims k + acc)%N) 0%N o.

(** The column offset map [solve] computes from an ordering and a
    dimension map. *)
Definition column_offsets (o : Ordering) (dims : gmap Key N) : gmap Key N :=
  (column_loop o ∅ dims 0%N).1.

(** The vector [solve] downloads: as many entries of [x_gpu] as [A] has
    columns. *)
Definition downloaded_x (E : Environment) (gfg : GaussianFactorGraph)
    (o : Ordering) : Vector :=
  map (chol_x E) (seq 0 (Eigen.cols (sparseJacobianEigen E gfg o) - 1)).

(** The statuses of a device on which the call number [k] fails with
    [code] and every other call succeeds. *)
Definition fail_at (k : nat) (code : Z) : nat -> Z :=
  fun n => if decide (n = k) then code else 0.

(** An environment for the examples: the assembler returns a matrix of
    zeros with no rows and one column per unit of dimension, plus the
    right-hand side. *)
Definition example_environment (statuses : nat -> Z) (singularity : Z)
    : Environment :=
  mkEnvironment "CuSparseSolver.cpp"
    (fun gfg o =>
       Eigen.mkMatrix 0
         (N.to_nat (total_columns (dimensions gfg) o) + 1)
         (fun _ _ => 0%R))
    (fun _ => 0) statuses singularity (fun _ => 0%R).

(** A machine on which nothing has happened yet. *)
Definition fresh_machine (type : CuSparseSolverType) (o : Ordering)
    : Machine :=
  mkMachine (CuSparseSolver_new type o) ∅ (fun _ => NULL) 0 [].

(** The next [k] device calls made from [m] are answered with success. *)
Definition device_succeeds (E : Environment) (m : Machine) (k : nat) : Prop :=
  forall n, (n < k)%nat -> status E (n + calls m) = 0.

(** In the device stage of [solve] the device calls number 11, 12 and 13
    (counted from zero) are made once all five buffers exist: the copy
    of [b] to the device, the Cholesky solve and the copy of [x] back.
    [late_site] is the line of the check that follows each of them and
    [late_prefix] the text that check puts before the status code. *)
Definition late_site (k : nat) : Z :=
  match k with 11%nat => 147 | 12%nat => 158 | _ => 164 end.

Definition late_prefix (k : nat) : string :=
  match k with 12%nat => "cuSolver error " | _ => "cudaMalloc error " end.

(** The graph of the examples: a factor on variable 0, of dimension 2,
    a null pointer, and a factor on variables 0 and 1, of dimensions 2
    and 3. *)
Definition example_graph : GaussianFactorGraph :=
  [ Some (mkFactor [0%N] (fun _ => 2%N));
    None;
    Some (mkFactor [0%N; 1%N]
            (fun it => match it with O => 2%N | _ => 3%N end)) ].

(** Two factors that disagree on the dimension of variable 0. *)
Definition disagreeing_graph : GaussianFactorGraph :=
  [ Some (mkFactor [0%N] (fun _ => 2%N));
    Some (mkFactor [1%N; 0%N] (fun _ => 3%N)) ].

Definition example_Ab : Eigen.Matrix :=
  Eigen.mkMatrix 2 3 (fun i j => INR (i + 2 * j)).

(** [M.selfadjointView<Eigen::Upper>()] read as a full matrix: the
    coefficients on and above the diagonal are those of [M], the ones
    below are their mirror images. *)
Definition selfadjointView_Upper (M : Eigen.Matrix) : Eigen.Matrix :=
  Eigen.mkMatrix (Eigen.rows M) (Eigen.cols M)
    (fun i j =>
       if (i <=? j)%nat then Eigen.coeff M i j else Eigen.coeff M j i).

(** The three matrices [solve] assembles from [Ab]: [A], the right-hand
    side [b] and [AtA]. *)
Definition system_matrix (Ab : Eigen.Matrix) : Eigen.Matrix :=
  (normal_equations Ab).1.1.

Definition normal_rhs (Ab : Eigen.Matrix) : Eigen.Matrix :=
  (normal_equations Ab).1.2.

Definition normal_matrix (Ab : Eigen.Matrix) : Eigen.Matrix :=
  (normal_equations Ab).2.

(** The dimension map as the loop of the column offsets leaves it. *)
Definition dims_after_offsets (o : Ordering) (dims : gmap Key N)
    : gmap Key N :=
  (column_loop o ∅ dims 0%N).2.

(** [solve] makes fourteen device calls whose status it tests, numbered
    from zero in the order of the source: [cusolverSpCreate],
    [cusparseCreateMatDescr], [cusparseSetMatType], the three
    [cudaMalloc] and the three [cudaMemcpy] of the upload, the
    [cudaMalloc] of [x_gpu] and of [b_gpu], the [cudaMemcpy] of [b], the
    Cholesky solve and the [cudaMemcpy] of [x].  [buffers_before k] is
    the number of device buffers allocated before the call number [k]. *)
Definition buffers_before (k : nat) : nat :=
  match k with
  | 0 | 1 | 2 | 3 => 0
  | 4 => 1
  | 5 => 2
  | 6 | 7 | 8 | 9 => 3
  | 10 => 4
  | _ => 5
  end%nat.

(** The text a status check puts in its runtime error: the prefix of
    the check, the status code and the location of the call. *)
Definition check_text (E : Environment) (prefix : string) (code line : Z)
    : string :=
  prefix +:+ to_string code +:+ " at " +:+ ____LOCATION E line.

(** The text of the runtime error that follows the device call number
    [k] when it answers the status [code]. *)
Definition device_error_text (E : Environment) (k : nat) (code : Z)
    : string :=
  match k with
  | 0 => check_text E "cuSolver error " code 131
  | 1 => check_text E "cuSparse error " code 134
  | 2 => check_text E "cuSparse error " code 135
  | 3 => "cudaMalloc error: out of memory? trying to allocate "
           +:+ to_string code
  | 4 | 5 => "cudaMalloc error: out of memory?"
  | 6 => check_text E "cudaMalloc error " code 98
  | 7 => check_text E "cudaMalloc error " code 102
  | 8 => check_text E "cudaMalloc error " code 105
  | 9 => check_text E "cudaMalloc error " code 144
  | 10 => check_text E "cudaMalloc error " code 145
  | 11 => check_text E "cudaMalloc error " code 147
  | 12 => check_text E "cuSolver error " code 158
  | _ => check_text E "cudaMalloc error " code 164
  end%nat.

(** Two graphs for the examples: a factor on variable 0, of dimension
    2, and a factor on variable 1, of dimension 3. *)
Definition graph_of_0 : GaussianFactorGraph :=
  [ Some (mkFactor [0%N] (fun _ => 2%N)) ].

Definition graph_of_1 : GaussianFactorGraph :=
  [ Some (mkFactor [1%N] (fun _ => 3%N)) ].

(** A system without rows. *)
Definition empty_Ab : Eigen.Matrix :=
  Eigen.mkMatrix 0 3 (fun _ _ => 0%R).

(* ===================================================================== *)
(** * Theorems: [Sphere2]                                                 *)
(* ===================================================================== *)

Section Sphere2_facts.

Import Geometry.
Local Open Scope R_scope.

Lemma sum_squares_nonneg (p : Point3) :
  0 <= px p * px p + py p * py p + pz p * pz p.
Proof. nra. Qed.

Lemma norm_square (p : Point3) :
  norm p * norm p = px p * px p + py p * py p + pz p * pz p.
Proof. unfold norm. apply sqrt_sqrt, sum_squares_nonneg. Qed.




Lemma norm_zero_point : norm (mkPoint3 0 0 0) = 0.
Proof.
  unfold norm; cbn [px py pz].
  replace (0 * 0 + 0 * 0 + 0 * 0) with 0 by ring. apply sqrt_0.
Qed.

Lemma norm_eq_0 (p : Point3) : norm p = 0 <-> p = mkPoint3 0 0 0.
Proof.
  split.
  - intros H. pose proof (norm_square p) as Hs. rewrite H in Hs.
    destruct p as [x y z]; cbn [px py pz] in Hs.
    assert (x = 0) by nra. assert (y = 0) by nra. assert (z = 0) by nra.
    subst; reflexivity.
  - intros ->. apply norm_zero_point.
Qed.









End Sphere2_facts.

(* ===================================================================== *)
(** * Theorems: the normal equations                                      *)
(* ===================================================================== *)

Section Normal_equations_facts.

Import Eigen.

Lemma dot_ext (n : nat) (f f' g g' : nat -> R) :
  (forall k, f k = f' k) -> (forall k, g k = g' k) ->
  dot n f g = dot n f' g'.
Proof.
  intros Hf Hg. unfold dot. generalize 0%nat.
  induction n as [| n IH]; intros s; cbn [seq foldr]; [reflexivity |].
  rewrite Hf, Hg, (IH (S s)). reflexivity.
Qed.

(** C5.  For an augmented system [Ab] with [r] rows and [c + 1] columns
    the reduction yields: [A], the first [c] columns of [Ab]; the reduced
    right-hand side, the product of the transpose of [A] with the last
    column of [Ab]; and [AtA], the upper triangle of the product of the
    transpose of [A] with [A] (zero below the diagonal), obtained as the
    rank update of the [c] by [c] zero matrix by the transpose of [A]. *)
Theorem normal_equations_spec (Ab : Matrix) (r c : nat) :
  rows Ab = r -> cols Ab = (c + 1)%nat ->
  let '(A, b, AtA) := normal_equations Ab in
  (rows A = r /\ cols A = c /\ forall i j, coeff A i j = coeff Ab i j) /\
  (rows b = c /\ cols b = 1%nat /\
   forall j, coeff b j 0 =
     dot r (fun k => coeff A k j) (fun k => coeff Ab k c)) /\
  (rows AtA = c /\ cols AtA = c /\
   forall i j, coeff AtA i j =
     if (i <=? j)%nat
     then dot r (fun k => coeff A k i) (fun k => coeff A k j)
     else 0%R) /\
  b = mul (transpose A) (col Ab c) /\
  AtA = rankUpdate_Upper (zero c c) (transpose A) 1.
Proof.
  intros Hr Hc. unfold normal_equations.
  replace (cols Ab - 1)%nat with c by lia. rewrite Hr.
  cbn [block transpose mul col zero upper rankUpdate_Upper rows cols coeff].
  repeat split.
  - intros i j.
    destruct (i <=? j)%nat.
    + rewrite Rplus_0_l, Rmult_1_l. apply dot_ext; reflexivity.
    + ring.
Qed.

Lemma normal_equations_spec_witness :
  let '(A, b, AtA) := normal_equations example_Ab in
  (rows A = 2%nat /\ cols A = 2%nat /\
   forall i j, coeff A i j = coeff example_Ab i j) /\
  (rows b = 2%nat /\ cols b = 1%nat /\
   forall j, coeff b j 0 =
     dot 2 (fun k => coeff A k j) (fun k => coeff example_Ab k 2)) /\
  (rows AtA = 2%nat /\ cols AtA = 2%nat /\
   forall i j, coeff AtA i j =
     if (i <=? j)%nat
     then dot 2 (fun k => coeff A k i) (fun k => coeff A k j)
     else 0%R) /\
  b = mul (transpose A) (col example_Ab 2) /\
  AtA = rankUpdate_Upper (zero 2 2) (transpose A) 1.
Proof.
  exact (normal_equations_spec example_Ab 2 2 eq_refl eq_refl).
Defined.

End Normal_equations_facts.

(* ===================================================================== *)
(** * Theorems: the variable dimension map                                *)
(* ===================================================================== *)

Section Dimension_map_facts.

Implicit Types (dims : gmap Key N) (k key : Key) (gfg : GaussianFactorGraph).

Lemma scan_keys_other factor ks : forall it dims k,
  k ∉ ks -> scan_keys factor it ks dims !! k = dims !! k.
Proof.
  induction ks as [| key ks IH]; intros it dims k Hk; cbn [scan_keys];
    [reflexivity |].
  apply not_elem_of_cons in Hk as [Hne Hk].
  rewrite IH by exact Hk. apply lookup_insert_ne. congruence.
Qed.

Lemma scan_keys_last factor ks : forall it dims i k,
  ks !! i = Some k -> k ∉ drop (S i) ks ->
  scan_keys factor it ks dims !! k = Some (getDim factor (it + i)).
Proof.
  induction ks as [| key ks IH]; intros it dims i k Hi Hlast;
    [discriminate |].
  cbn [scan_keys]. destruct i as [| i].
  - injection Hi as ->. cbn [drop] in Hlast.
    rewrite scan_keys_other by exact Hlast.
    rewrite Nat.add_0_r. apply lookup_insert_eq.
  - cbn in Hi. rewrite (IH (S it) _ i k Hi Hlast). do 2 f_equal. lia.
Qed.

Lemma scan_keys_is_Some factor ks : forall it dims k,
  is_Some (scan_keys factor it ks dims !! k) <->
  is_Some (dims !! k) \/ k ∈ ks.
Proof.
  induction ks as [| key ks IH]; intros it dims k; cbn [scan_keys].
  - rewrite elem_of_nil. tauto.
  - rewrite IH, elem_of_cons, lookup_insert_is_Some. 
    destruct (decide (key = k)) as [-> | Hne]; [tauto |]. 
    split; [intros [[? | [_ ?]] | ?] | intros [? | [? | ?]]]; auto; congruence.
Qed.

Lemma scan_factors_app gfg1 gfg2 : forall dims,
  scan_factors (gfg1 ++ gfg2) dims = scan_factors gfg2 (scan_factors gfg1 dims).
Proof.
  induction gfg1 as [| [factor |] gfg1 IH]; intros dims; cbn [app scan_factors];
    [reflexivity | apply IH | apply IH].
Qed.

Lemma referenced_cons_None gfg k :
  referenced (None :: gfg) k <-> referenced gfg k.
Proof.
  unfold referenced. split; intros (f & Hin & Hk); exists f; split; auto.
  - apply elem_of_cons in Hin as [? | ?]; [discriminate | assumption].
  - apply elem_of_cons; auto.
Qed.

Lemma referenced_cons_Some factor gfg k :
  referenced (Some factor :: gfg) k <-> k ∈ keys factor \/ referenced gfg k.
Proof.
  unfold referenced. split.
  - intros (f & Hin & Hk). apply elem_of_cons in Hin as [Heq | Hin].
    + injection Heq as ->. auto.
    + right. exists f. auto.
  - intros [Hk | (f & Hin & Hk)].
    + exists factor. split; [apply elem_of_cons; auto | exact Hk].
    + exists f. split; [apply elem_of_cons; auto | exact Hk].
Qed.

Lemma referenced_nil k : ~ referenced [] k.
Proof. intros (f & Hin & _). apply elem_of_nil in Hin. exact Hin. Qed.

Lemma scan_factors_other gfg : forall dims k,
  ~ referenced gfg k -> scan_factors gfg dims !! k = dims !! k.
Proof.
  induction gfg as [| [factor |] gfg IH]; intros dims k Hk; cbn [scan_factors].
  - reflexivity.
  - rewrite IH.
    + apply scan_keys_other. intros Hin. apply Hk, referenced_cons_Some. auto.
    + intros Hr. apply Hk, referenced_cons_Some. auto.
  - apply IH. intros Hr. apply Hk, referenced_cons_None, Hr.
Qed.

Lemma scan_factors_is_Some gfg : forall dims k,
  is_Some (scan_factors gfg dims !! k) <->
  is_Some (dims !! k) \/ referenced gfg k.
Proof.
  induction gfg as [| [factor |] gfg IH]; intros dims k; cbn [scan_factors].
  - pose proof (referenced_nil k). tauto.
  - rewrite IH, scan_keys_is_Some, referenced_cons_Some. tauto.
  - rewrite IH, referenced_cons_None. tauto.
Qed.

Lemma dimensions_is_Some gfg k :
  is_Some (dimensions gfg !! k) <-> referenced gfg k.
Proof.
  unfold dimensions. rewrite scan_factors_is_Some, lookup_empty.
  split; [intros [[? ?] | ?]; [discriminate | assumption] | auto].
Qed.

(** C8.  The dimension map is built by scanning the factors in graph
    order and, inside a factor, its keys in order, recording for every
    key touched the dimension that factor reports for it.  No step of the
    scan can fail.  A variable has a recorded dimension exactly when some
    factor touches it, and the recorded dimension is the one reported at
    the last place, in scan order, where the variable is touched,
    whatever was reported for it before. *)
Theorem dimensions_last_writer gfg before factor after (i : nat) k :
  gfg = before ++ Some factor :: after ->
  keys factor !! i = Some k ->
  k ∉ drop (S i) (keys factor) ->
  ~ referenced after k ->
  dimensions gfg !! k = Some (getDim factor i) /\
  (forall k', is_Some (dimensions gfg !! k') <-> referenced gfg k').
Proof.
  intros -> Hi Hlast Hafter. split; [| intros k'; apply dimensions_is_Some].
  unfold dimensions. rewrite scan_factors_app. cbn [scan_factors].
  rewrite scan_factors_other by exact Hafter.
  apply (scan_keys_last factor (keys factor) 0 _ i k Hi Hlast).
Qed.

Lemma dimensions_last_writer_witness :
  dimensions disagreeing_graph !! 0%N = Some 3%N /\
  (forall k', is_Some (dimensions disagreeing_graph !! k') <->
     referenced disagreeing_graph k').
Proof.
  apply (dimensions_last_writer disagreeing_graph
           [Some (mkFactor [0%N] (fun _ => 2%N))]
           (mkFactor [1%N; 0%N] (fun _ => 3%N)) [] 1 0%N).
  - reflexivity.
  - reflexivity.
  - cbn [drop keys]. apply not_elem_of_nil.
  - apply referenced_nil.
Defined.

End Dimension_map_facts.

(* ===================================================================== *)
(** * Theorems: the column offset map                                     *)
(* ===================================================================== *)

Section Column_offset_facts.

Local Open Scope N_scope.
Implicit Types (dims ci : gmap Key N) (k key : Key) (o : Ordering).

Lemma subscript_fst dims key : (subscript dims key).1 = value_at dims key.
Proof.
  unfold subscript. unfold value_at.
  destruct (dims !! key); reflexivity.
Qed.

Lemma subscript_snd_lookup dims key k :
  (subscript dims key).2 !! k =
    if decide (k = key) then Some (value_at dims key) else dims !! k.
Proof.
  unfold subscript. unfold value_at.
  destruct (dims !! key) as [d |] eqn:Hd; cbn [snd default].
  - destruct (decide (k = key)) as [-> |]; [exact Hd | reflexivity].
  - destruct (decide (k = key)) as [-> | Hne];
      [apply lookup_insert_eq | apply lookup_insert_ne; congruence].
Qed.

Lemma subscript_snd_total dims key k :
  value_at (subscript dims key).2 k = value_at dims k.
Proof.
  unfold value_at at 1. rewrite subscript_snd_lookup.
  destruct (decide (k = key)) as [-> |]; reflexivity.
Qed.

Lemma total_columns_ext dims dims' o :
  (forall k, value_at dims' k = value_at dims k) ->
  total_columns dims' o = total_columns dims o.
Proof.
  intros H. induction o as [| key o IH]; cbn [total_columns foldr];
    [reflexivity |].
  fold (total_columns dims' o). fold (total_columns dims o).
  rewrite H, IH. reflexivity.
Qed.

Lemma total_columns_cons dims key o :
  total_columns dims (key :: o) = value_at dims key + total_columns dims o.
Proof. reflexivity. Qed.

Lemma total_columns_app dims o1 o2 :
  total_columns dims (o1 ++ o2) = total_columns dims o1 + total_columns dims o2.
Proof.
  induction o1 as [| key o1 IH]; [reflexivity |].
  cbn [app]. rewrite !total_columns_cons, IH. lia.
Qed.

Lemma total_columns_take_le dims o i :
  total_columns dims (take i o) <= total_columns dims o.
Proof.
  rewrite <- (take_drop i o) at 2. rewrite total_columns_app. lia.
Qed.

Lemma total_columns_take_S dims o i k :
  o !! i = Some k ->
  total_columns dims (take (S i) o) =
    total_columns dims (take i o) + value_at dims k.
Proof.
  intros Hi. rewrite (take_S_r _ _ _ Hi), total_columns_app.
  rewrite total_columns_cons. cbn. lia.
Qed.

Lemma total_columns_take_mono dims o i j :
  (i <= j)%nat ->
  total_columns dims (take i o) <= total_columns dims (take j o).
Proof.
  intros Hij. replace i with (i `min` j)%nat by lia.
  rewrite <- take_take. apply total_columns_take_le.
Qed.

(** What the loop leaves in its two maps, when the running sum stays
    below [2^64]. *)
Lemma column_loop_spec o : forall ci dims cur,
  cur + total_columns dims o < 2 ^ 64 ->
  (forall k, (column_loop o ci dims cur).2 !! k =
     if decide (k ∈ o) then Some (value_at dims k) else dims !! k) /\
  (forall k, k ∉ o -> (column_loop o ci dims cur).1 !! k = ci !! k) /\
  (forall i k, o !! i = Some k -> k ∉ drop (S i) o ->
     (column_loop o ci dims cur).1 !! k =
       Some (cur + total_columns dims (take i o))).
Proof.
  induction o as [| key o IH]; intros ci dims cur Hbound.
  - cbn [column_loop fst snd]. split; [| split].
    + intros k. case_decide as Hin; [| reflexivity].
      apply elem_of_nil in Hin. contradiction.
    + reflexivity.
    + intros i k Hi. discriminate.
  - cbn [column_loop]. rewrite total_columns_cons in Hbound.
    destruct (subscript dims key) as [d dims1] eqn:Hsub.
    assert (Hd : d = value_at dims key)
      by (rewrite <- subscript_fst, Hsub; reflexivity).
    assert (Hdims1 : dims1 = (subscript dims key).2)
      by (rewrite Hsub; reflexivity).
    assert (Htot : forall l, total_columns dims1 l = total_columns dims l).
    { intros l. apply total_columns_ext. intros k. subst dims1.
      apply subscript_snd_total. }
    assert (Hadd : size_add cur d = cur + d).
    { unfold size_add. apply N.mod_small. lia. }
    rewrite Hadd.
    destruct (IH (<[key := cur]> ci) dims1 (cur + d)) as (IHd & IHo & IHi).
    { rewrite Htot. lia. }
    split; [| split].
    + intros k. rewrite IHd. subst dims1.
      rewrite subscript_snd_total, subscript_snd_lookup.
      destruct (decide (k = key)) as [-> | Hne].
      * rewrite (decide_True (P := key ∈ key :: o))
          by (apply elem_of_cons; auto).
        destruct (decide (key ∈ o)); reflexivity.
      * destruct (decide (k ∈ o)) as [Hin | Hnin].
        -- rewrite decide_True by (apply elem_of_cons; auto). reflexivity.
        -- rewrite decide_False; [reflexivity |].
           intros [? | ?]%elem_of_cons; contradiction.
    + intros k Hk. apply not_elem_of_cons in Hk as [Hne Hk].
      rewrite IHo by exact Hk. apply lookup_insert_ne. congruence.
    + intros i k Hi Hlast. destruct i as [| i].
      * injection Hi as ->. cbn [drop] in Hlast.
        rewrite IHo by exact Hlast. rewrite lookup_insert_eq.
        cbn [take total_columns foldr]. f_equal. lia.
      * cbn in Hi. cbn [drop] in Hlast.
        rewrite (IHi i k Hi Hlast). rewrite Htot.
        cbn [take]. rewrite total_columns_cons. f_equal. lia.
Qed.

Lemma NoDup_lookup_not_later o i k :
  NoDup o -> o !! i = Some k -> k ∉ drop (S i) o.
Proof.
  intros Hnd Hi Hin. apply list_elem_of_lookup in Hin as [j Hj].
  rewrite lookup_drop in Hj.
  pose proof (NoDup_lookup _ _ _ _ Hnd Hi Hj). lia.
Qed.

Lemma column_offsets_lookup o dims i k :
  NoDup o -> total_columns dims o < 2 ^ 64 -> o !! i = Some k ->
  column_offsets o dims !! k = Some (total_columns dims (take i o)).
Proof.
  intros Hnd Hbound Hi. unfold column_offsets.
  destruct (column_loop_spec o ∅ dims 0) as (_ & _ & H); [lia |].
  rewrite (H i k Hi (NoDup_lookup_not_later o i k Hnd Hi)). f_equal.
Qed.

Lemma column_offsets_total o dims i k :
  NoDup o -> total_columns dims o < 2 ^ 64 -> o !! i = Some k ->
  value_at (column_offsets o dims) k = total_columns dims (take i o).
Proof.
  intros Hnd Hbound Hi. unfold value_at.
  rewrite (column_offsets_lookup o dims i k Hnd Hbound Hi). reflexivity.
Qed.

(** Every column below the total lies in the block of some position. *)
Lemma block_of_column dims o : forall c,
  c < total_columns dims o ->
  exists i k, o !! i = Some k /\
    total_columns dims (take i o) <= c
      < total_columns dims (take i o) + value_at dims k.
Proof.
  induction o as [| key o IH]; intros c Hc.
  - cbn in Hc. lia.
  - rewrite total_columns_cons in Hc.
    destruct (decide (c < value_at dims key)) as [Hlt | Hge].
    + exists 0%nat, key. cbn [take total_columns foldr].
      split; [reflexivity | lia].
    + destruct (IH (c - value_at dims key)) as (i & k & Hi & Hlo & Hhi);
        [lia |].
      exists (S i), k. cbn [take]. rewrite total_columns_cons.
      split; [exact Hi | lia].
Qed.

Lemma last_occurrence o k :
  k ∈ o -> exists i, o !! i = Some k /\ k ∉ drop (S i) o.
Proof.
  induction o as [| key o IH]; intros Hin.
  - apply elem_of_nil in Hin. contradiction.
  - destruct (decide (k ∈ o)) as [Hlater | Hlast].
    + destruct (IH Hlater) as (i & Hi & Hd). exists (S i). auto.
    + apply elem_of_cons in Hin as [-> | Hin]; [| contradiction].
      exists 0%nat. auto.
Qed.

(** The block of every key of the ordering ends at or before the total,
    whether or not the ordering repeats keys. *)
Lemma column_offsets_in_range o dims k :
  total_columns dims o < 2 ^ 64 -> k ∈ o ->
  value_at (column_offsets o dims) k + value_at dims k
    <= total_columns dims o.
Proof.
  intros Hbound Hin.
  destruct (last_occurrence o k Hin) as (i & Hi & Hlast).
  destruct (column_loop_spec o ∅ dims 0) as (_ & _ & H); [lia |].
  unfold column_offsets, value_at at 1. rewrite (H i k Hi Hlast).
  cbn [from_option]. unfold Datatypes.id. rewrite N.add_0_l.
  rewrite <- (total_columns_take_S dims o i k Hi).
  apply total_columns_take_le.
Qed.

(** C6.  For an ordering of distinct keys whose total dimension fits
    [size_t], the column offset map is the prefix sum of the recorded
    dimensions in ordering order: the key at position [i] has the sum of
    the dimensions of the keys before it; the first key has offset zero;
    each next key has the previous offset plus the previous dimension;
    offsets do not decrease along the ordering, and increase strictly
    past a key of positive dimension; every block ends at or before the
    total; and every column below the total lies in the block of exactly
    one key of the ordering. *)
Theorem column_offsets_prefix_sum (o : Ordering) (dims : gmap Key N) :
  NoDup o ->
  total_columns dims o < 2 ^ 64 ->
  let offset k := value_at (column_offsets o dims) k in
  (forall i k, o !! i = Some k ->
     column_offsets o dims !! k = Some (total_columns dims (take i o))) /\
  (forall k, o !! 0%nat = Some k -> offset k = 0) /\
  (forall i k k', o !! i = Some k -> o !! S i = Some k' ->
     offset k' = offset k + value_at dims k) /\
  (forall i j k k', (i <= j)%nat -> o !! i = Some k -> o !! j = Some k' ->
     offset k <= offset k') /\
  (forall i j k k', (i < j)%nat -> o !! i = Some k -> o !! j = Some k' ->
     0 < value_at dims k -> offset k < offset k') /\
  (forall k, k ∈ o -> offset k + value_at dims k <= total_columns dims o) /\
  (forall c, c < total_columns dims o ->
     exists k, k ∈ o /\ offset k <= c < offset k + value_at dims k /\
       forall k', k' ∈ o ->
         offset k' <= c < offset k' + value_at dims k' -> k' = k).
Proof.
  intros Hnd Hbound offset. subst offset. cbn beta.
  split; [| split; [| split; [| split; [| split; [| split]]]]].
  - intros i k Hi. apply column_offsets_lookup; assumption.
  - intros k H0. rewrite (column_offsets_total o dims 0 k) by assumption.
    reflexivity.
  - intros i k k' Hi HSi.
    rewrite (column_offsets_total o dims (S i) k') by assumption.
    rewrite (column_offsets_total o dims i k) by assumption.
    apply total_columns_take_S, Hi.
  - intros i j k k' Hij Hi Hj.
    rewrite (column_offsets_total o dims i k) by assumption.
    rewrite (column_offsets_total o dims j k') by assumption.
    apply total_columns_take_mono, Hij.
  - intros i j k k' Hij Hi Hj Hpos.
    rewrite (column_offsets_total o dims i k) by assumption.
    rewrite (column_offsets_total o dims j k') by assumption.
    pose proof (total_columns_take_mono dims o (S i) j ltac:(lia)) as Hm.
    rewrite (total_columns_take_S dims o i k Hi) in Hm. lia.
  - intros k Hin. apply column_offsets_in_range; assumption.
  - intros c Hc.
    destruct (block_of_column dims o c Hc) as (i & k & Hi & Hlo & Hhi).
    exists k. split; [apply list_elem_of_lookup; eauto |].
    rewrite (column_offsets_total o dims i k) by assumption.
    split; [lia |].
    intros k' Hin' [Hlo' Hhi'].
    apply list_elem_of_lookup in Hin' as [j Hj].
    rewrite (column_offsets_total o dims j k') in Hlo', Hhi' by assumption.
    destruct (decide (i = j)) as [-> | Hne]; [congruence |].
    exfalso.
    destruct (decide (i < j)%nat).
    + pose proof (total_columns_take_mono dims o (S i) j ltac:(lia)) as Hm.
      rewrite (total_columns_take_S dims o i k Hi) in Hm. lia.
    + pose proof (total_columns_take_mono dims o (S j) i ltac:(lia)) as Hm.
      rewrite (total_columns_take_S dims o j k' Hj) in Hm. lia.
Qed.

(** The end-to-end example of the specification: variables 0 and 1 of
    dimensions 2 and 3, ordered [0; 1], get the offsets 0 and 2. *)
Example example_column_offsets :
  column_offsets [0; 1] (dimensions example_graph) = {[ 0 := 0; 1 := 2 ]}.
Proof. vm_compute. reflexivity. Qed.

Lemma column_offsets_prefix_sum_witness :
  NoDup [0; 1] /\
  total_columns (dimensions example_graph) [0; 1] < 2 ^ 64 /\
  column_offsets [0; 1] (dimensions example_graph) !! 1 =
    Some (total_columns (dimensions example_graph) (take 1 [0; 1])) /\
  value_at (column_offsets [0; 1] (dimensions example_graph)) 1 =
    value_at (column_offsets [0; 1] (dimensions example_graph)) 0
    + value_at (dimensions example_graph) 0.
Proof.
  assert (Hnd : NoDup [0; 1]) by compute_done.
  assert (Hb : total_columns (dimensions example_graph) [0; 1] < 2 ^ 64)
    by (vm_compute; reflexivity).
  pose proof (column_offsets_prefix_sum [0; 1] (dimensions example_graph)
                Hnd Hb) as (Hsum & _ & Hnext & _).
  split; [exact Hnd |]. split; [exact Hb |].
  split; [exact (Hsum 1%nat 1 eq_refl) |].
  exact (Hnext 0%nat 0 1 eq_refl eq_refl).
Defined.

End Column_offset_facts.

(* ===================================================================== *)
(** * Lemmas: the result mapping                                          *)
(* ===================================================================== *)

Section Remap_facts.

Local Open Scope N_scope.
Implicit Types (dims ci : gmap Key N) (k key : Key) (o : Ordering)
  (x : Vector) (vv : VectorValues).

Lemma column_loop_dims o : forall ci dims cur k,
  (column_loop o ci dims cur).2 !! k =
    if decide (k ∈ o) then Some (value_at dims k) else dims !! k.
Proof.
  induction o as [| key o IH]; intros ci dims cur k.
  - cbn [column_loop snd]. case_decide as Hin; [| reflexivity].
    apply elem_of_nil in Hin. contradiction.
  - cbn [column_loop].
    destruct (subscript dims key) as [d dims1] eqn:Hsub.
    assert (Hdims1 : dims1 = (subscript dims key).2)
      by (rewrite Hsub; reflexivity).
    rewrite IH. subst dims1.
    rewrite subscript_snd_total, subscript_snd_lookup.
    destruct (decide (k = key)) as [-> | Hne].
    + rewrite (decide_True (P := key ∈ key :: o))
        by (apply elem_of_cons; auto).
      destruct (decide (key ∈ o)); reflexivity.
    + destruct (decide (k ∈ o)) as [Hin | Hnin].
      * rewrite decide_True by (apply elem_of_cons; auto). reflexivity.
      * rewrite decide_False; [reflexivity |].
        intros [? | ?]%elem_of_cons; contradiction.
Qed.

Lemma segment_Some x start n s :
  segment x start n = Some s ->
  start + n <= N.of_nat (length x) /\
  s = take (N.to_nat n) (drop (N.to_nat start) x) /\
  length s = N.to_nat n.
Proof.
  unfold segment. case_decide as Hle; [| discriminate].
  intros [= <-]. split; [exact Hle | split; [reflexivity |]].
  rewrite length_take, length_drop. lia.
Qed.

Lemma segment_in_range x start n :
  start + n <= N.of_nat (length x) ->
  segment x start n = Some (take (N.to_nat n) (drop (N.to_nat start) x)).
Proof.
  intros Hle. unfold segment. rewrite decide_True by exact Hle. reflexivity.
Qed.

(** The loop that fills the result: either every entry of [dims] gave a
    segment, and the result holds exactly these; or some segment lay
    outside [x]. *)
Lemma insert_segment_fold x ci dims :
  match map_fold (insert_segment x ci) (Some ∅) dims with
  | Some vv =>
      forall k,
        match dims !! k with
        | Some d =>
            exists s, segment x (value_at ci k) d = Some s /\ vv !! k = Some s
        | None => vv !! k = None
        end
  | None =>
      exists k d, dims !! k = Some d /\ segment x (value_at ci k) d = None
  end.
Proof.
  apply (map_fold_weak_ind
    (fun acc (m : gmap Key N) =>
       match acc with
       | Some vv =>
           forall k,
             match m !! k with
             | Some d =>
                 exists s,
                   segment x (value_at ci k) d = Some s /\ vv !! k = Some s
             | None => vv !! k = None
             end
       | None =>
           exists k d, m !! k = Some d /\ segment x (value_at ci k) d = None
       end)).
  - intros k. rewrite !lookup_empty. reflexivity.
  - intros key d m acc Hfresh IH.
    destruct acc as [vv |]; cbn [insert_segment].
    + destruct (segment x (value_at ci key) d) as [s |] eqn:Hs.
      * intros k. destruct (decide (k = key)) as [-> | Hne].
        -- rewrite !lookup_insert_eq. eauto.
        -- rewrite !lookup_insert_ne by congruence. apply IH.
      * exists key, d. rewrite lookup_insert_eq. auto.
    + destruct IH as (k & d' & Hk & Hnone). exists k, d'.
      split; [| exact Hnone].
      rewrite lookup_insert_ne; [exact Hk | congruence].
Qed.

(** The entries [remap] visits: the keys some factor touches and the
    keys of the ordering, each with its recorded dimension. *)
Lemma visited_entries o dims ci cur k :
  (column_loop o ci dims cur).2 !! k =
    if decide (is_Some (dims !! k) \/ k ∈ o)
    then Some (value_at dims k) else None.
Proof.
  rewrite column_loop_dims. unfold value_at.
  destruct (decide (k ∈ o)) as [Hin | Hnin].
  - rewrite decide_True by auto. reflexivity.
  - destruct (dims !! k) as [d |] eqn:Hd.
    + rewrite decide_True by eauto. reflexivity.
    + rewrite decide_False; [reflexivity |].
      intros [[? ?] | ?]; [discriminate | contradiction].
Qed.

(** The entries of a result of [remap]. *)
Lemma remap_Some x gfg o vv :
  remap x gfg o = Some vv ->
  forall k,
    (referenced gfg k \/ k ∈ o ->
     exists s,
       segment x (value_at (column_offsets o (dimensions gfg)) k)
               (value_at (dimensions gfg) k) = Some s /\
       vv !! k = Some s) /\
    (is_Some (vv !! k) -> referenced gfg k \/ k ∈ o).
Proof.
  unfold remap, column_offsets. fold (dimensions gfg). intros Hr k.
  pose proof (visited_entries o (dimensions gfg) ∅ 0 k) as Hd.
  destruct (column_loop o ∅ (dimensions gfg) 0) as [ci dims'] eqn:Hloop.
  cbn [snd fst] in *.
  pose proof (insert_segment_fold x ci dims') as H.
  rewrite Hr in H. specialize (H k). rewrite Hd in H.
  assert (Hiff : is_Some (dimensions gfg !! k) \/ k ∈ o <->
                 referenced gfg k \/ k ∈ o)
    by (rewrite dimensions_is_Some; reflexivity).
  case_decide as Hor.
  - split; [intros _; exact H | intros _; apply Hiff, Hor].
  - split; [intros Hor'; exfalso; apply Hor, Hiff, Hor' |].
    rewrite H. intros [? ?]. discriminate.
Qed.

Lemma remap_is_Some x gfg o :
  (forall k, referenced gfg k \/ k ∈ o ->
     value_at (column_offsets o (dimensions gfg)) k
       + value_at (dimensions gfg) k <= N.of_nat (length x)) ->
  is_Some (remap x gfg o).
Proof.
  unfold remap, column_offsets. fold (dimensions gfg). intros Hrange.
  destruct (column_loop o ∅ (dimensions gfg) 0) as [ci dims'] eqn:Hloop.
  cbn [fst] in Hrange.
  pose proof (insert_segment_fold x ci dims') as H.
  destruct (map_fold (insert_segment x ci) (Some ∅) dims') as [vv |];
    [eauto | exfalso].
  destruct H as (k & d & Hk & Hnone).
  pose proof (visited_entries o (dimensions gfg) ∅ 0 k) as Hd.
  rewrite Hloop in Hd. cbn [snd] in Hd. rewrite Hk in Hd.
  case_decide as Hor; [| discriminate]. injection Hd as ->.
  rewrite segment_in_range in Hnone; [discriminate |].
  apply Hrange. destruct Hor as [Hsome | Hin]; [left | auto].
  apply dimensions_is_Some, Hsome.
Qed.

(** Consecutive blocks of [x], laid end to end. *)
Lemma concat_blocks dims x o : forall (p : N) (g : Key -> Vector),
  (forall i k, o !! i = Some k ->
     g k = take (N.to_nat (value_at dims k))
             (drop (N.to_nat (p + total_columns dims (take i o))) x)) ->
  concat (map g o) =
    take (N.to_nat (total_columns dims o)) (drop (N.to_nat p) x).
Proof.
  induction o as [| key o IH]; intros p g Hg; [reflexivity |].
  cbn [map concat]. rewrite (Hg 0%nat key eq_refl).
  cbn [take total_columns foldr]. rewrite N.add_0_r.
  rewrite (IH (p + value_at dims key) g).
  - fold (total_columns dims o). rewrite !N2Nat.inj_add.
    rewrite <- drop_drop. apply take_take_drop.
  - intros i k Hi. rewrite (Hg (S i) k Hi). cbn [take].
    rewrite total_columns_cons. do 3 f_equal. lia.
Qed.

(** A successful [remap]: what the result holds. *)
Lemma remap_result x gfg o vv :
  remap x gfg o = Some vv ->
  let dims := dimensions gfg in
  let offset k := value_at (column_offsets o dims) k in
  (forall k, is_Some (vv !! k) <-> referenced gfg k \/ k ∈ o) /\
  (forall k s, vv !! k = Some s ->
     length s = N.to_nat (value_at dims k) /\
     s = take (N.to_nat (value_at dims k)) (drop (N.to_nat (offset k)) x) /\
     offset k + value_at dims k <= N.of_nat (length x)) /\
  (forall k, k ∈ o -> ~ referenced gfg k -> vv !! k = Some []) /\
  (NoDup o -> total_columns dims o < 2 ^ 64 ->
   length x = N.to_nat (total_columns dims o) ->
   concat (map (fun k => default [] (vv !! k)) o) = x).
Proof.
  intros Hr dims offset.
  pose proof (remap_Some x gfg o vv Hr) as Hvv. fold dims in Hvv.
  assert (Hentry : forall k s, vv !! k = Some s ->
            segment x (offset k) (value_at dims k) = Some s /\
            (referenced gfg k \/ k ∈ o)).
  { intros k s Hk. destruct (Hvv k) as [Hin Hout].
    assert (Hor : referenced gfg k \/ k ∈ o) by (apply Hout; eauto).
    destruct (Hin Hor) as (s' & Hseg & Hs').
    assert (s' = s) by congruence. subst s'. split; [exact Hseg | exact Hor]. }
  assert (Hpresent : forall k, referenced gfg k \/ k ∈ o ->
            exists s, vv !! k = Some s).
  { intros k Hor. destruct (Hvv k) as [Hin _].
    destruct (Hin Hor) as (s & _ & Hs). eauto. }
  split; [| split; [| split]].
  - intros k. split.
    + intros [s Hk]. apply (Hentry k s Hk).
    + intros Hor. destruct (Hpresent k Hor) as [s Hs]. eauto.
  - intros k s Hk. destruct (Hentry k s Hk) as [Hseg _].
    apply segment_Some in Hseg as (Hle & -> & Hlen). auto.
  - intros k Hin Hnot.
    destruct (Hpresent k (or_intror Hin)) as [s Hs].
    destruct (Hentry k s Hs) as [Hseg _].
    apply segment_Some in Hseg as (_ & _ & Hlen).
    assert (Hzero : value_at dims k = 0).
    { unfold value_at. destruct (dims !! k) as [d |] eqn:Hd; [| reflexivity].
      exfalso. apply Hnot, dimensions_is_Some. fold dims. rewrite Hd. eauto. }
    rewrite Hzero in Hlen. destruct s; [exact Hs | discriminate].
  - intros Hnd Hbound Hlen.
    rewrite (concat_blocks dims x o 0 (fun k => default [] (vv !! k))).
    + cbn [N.to_nat drop]. apply take_ge. lia.
    + intros i k Hi.
      destruct (Hpresent k) as [s Hs];
        [right; apply list_elem_of_lookup; eauto |].
      rewrite Hs. cbn [from_option]. unfold Datatypes.id.
      destruct (Hentry k s Hs) as [Hseg _].
      apply segment_Some in Hseg as (_ & -> & _).
      unfold offset.
      rewrite (column_offsets_total o dims i k Hnd Hbound Hi).
      rewrite N.add_0_l. reflexivity.
Qed.

End Remap_facts.


(* ===================================================================== *)
(** * Theorems: the device and [solve]                                    *)
(* ===================================================================== *)

Section Device_facts.

Variable E : Environment.

Lemma bind_Returns {A B : Type} (c : M A) (f : A -> M B) m a m1 :
  c m = (Returns a, m1) -> (c ≫= f) m = f a m1.
Proof. intros H. unfold mbind, M_bind. rewrite H. reflexivity. Qed.

Lemma bind_Throws {A B : Type} (c : M A) (f : A -> M B) m e m1 :
  c m = (Throws e, m1) -> (c ≫= f) m = (Throws e, m1).
Proof. intros H. unfold mbind, M_bind. rewrite H. reflexivity. Qed.

Lemma bind_assoc {A B C : Type} (c : M A) (f : A -> M B) (g : B -> M C) m :
  ((c ≫= f) ≫= g) m = (c ≫= fun a => f a ≫= g) m.
Proof.
  unfold mbind, M_bind. destruct (c m) as [[a | e |] m1]; reflexivity.
Qed.

Lemma cudaMalloc_success v size m :
  status E (calls m) = 0 ->
  cudaMalloc E v size m =
    (Returns 0,
     set_var v (dev (fresh (dom (heap m))))
       (set_heap (<[fresh (dom (heap m)) := size]> (heap m))
          (record (ev_cudaMalloc v size 0) (answered m)))).
Proof.
  intros H. unfold cudaMalloc. rewrite H. unfold cudaSuccess.
  rewrite decide_True by reflexivity. reflexivity.
Qed.

Lemma cudaMalloc_failure v size m :
  status E (calls m) ≠ 0 ->
  cudaMalloc E v size m =
    (Returns (status E (calls m)),
     record (ev_cudaMalloc v size (status E (calls m))) (answered m)).
Proof.
  intros H. unfold cudaMalloc, cudaSuccess.
  rewrite decide_False by exact H. reflexivity.
Qed.

Lemma cudaFree_live a size m :
  heap m !! a = Some size ->
  cudaFree (dev a) m =
    (Returns 0,
     record (ev_cudaFree (dev a) 0) (set_heap (delete a (heap m)) m)).
Proof. intros H. unfold cudaFree. rewrite H. reflexivity. Qed.

Lemma checkCUDAError_success location m :
  checkCUDAError 0 location m = (Returns tt, m).
Proof. reflexivity. Qed.

Lemma checkCuSolverError_success location m :
  checkCuSolverError 0 location m = (Returns tt, m).
Proof. reflexivity. Qed.

Lemma checkCuSparseError_success location m :
  checkCuSparseError 0 location m = (Returns tt, m).
Proof. reflexivity. Qed.

Lemma checkCUDAError_failure code location m :
  code ≠ 0 ->
  checkCUDAError code location m =
    (Throws (runtime_error
       ("cudaMalloc error " +:+ to_string code +:+ " at " +:+ location)), m).
Proof.
  intros H. unfold checkCUDAError, cudaSuccess.
  rewrite decide_True by exact H. reflexivity.
Qed.

Lemma checkCuSolverError_failure code location m :
  code ≠ 0 ->
  checkCuSolverError code location m =
    (Throws (runtime_error
       ("cuSolver error " +:+ to_string code +:+ " at " +:+ location)), m).
Proof.
  intros H. unfold checkCuSolverError, CUSOLVER_STATUS_SUCCESS.
  rewrite decide_True by exact H. reflexivity.
Qed.

End Device_facts.


Ltac machine_simpl :=
  cbn [this heap stack calls log record answered set_heap set_var
       HostVar_eqb fst snd].

Ltac depth n :=
  lazymatch n with
  | S ?n' => let d := depth n' in constr:(S d)
  | _ => constr:(O)
  end.

(** The device answers success: from a hypothesis [H] on the answers
    that follow the initial state. *)
Ltac answered_ok H :=
  lazymatch goal with
  | |- status _ ?n = 0 => let k := depth n in exact (H k ltac:(lia))
  end.

Ltac rewrite_answers H :=
  repeat match goal with
  | |- context [status ?E ?n] =>
      let k := depth n in
      rewrite (H k ltac:(lia) : status E n = 0)
  end.

(** The address a [cudaMalloc] is about to return is not allocated, so
    it differs from the addresses allocated before. *)
Ltac note_fresh m :=
  let Hf := fresh "Hfresh" in
  pose proof (proj1 (not_elem_of_dom (heap m) (fresh (dom (heap m))))
                (is_fresh (dom (heap m)))) as Hf;
  cbn [this heap stack calls log record answered set_heap set_var] in Hf;
  repeat match goal with
  | X : <[_ := _]> _ !! _ = None |- _ =>
      apply lookup_insert_None in X as [X ?]
  end.

(** One statement that returns. *)
Ltac step H :=
  machine_simpl; rewrite_answers H; rewrite ?bind_assoc;
  lazymatch goal with
  | |- mbind _ (cudaMalloc _ _ _) ?m = _ => note_fresh m
  | |- _ => idtac
  end;
  etransitivity;
  [ apply bind_Returns;
    lazymatch goal with
    | |- cudaMalloc _ _ _ _ = _ =>
        apply cudaMalloc_success; machine_simpl; answered_ok H
    | |- checkCUDAError _ _ _ = _ => apply checkCUDAError_success
    | |- checkCuSolverError _ _ _ = _ => apply checkCuSolverError_success
    | |- checkCuSparseError _ _ _ = _ => apply checkCuSparseError_success
    | |- cudaFree (host _) _ = _ => reflexivity
    | |- cudaFree _ _ = _ =>
        eapply cudaFree_live; machine_simpl; simplify_map_eq; reflexivity
    | |- _ => reflexivity
    end
  | cbv beta iota ].

(** Name every fresh address of the goal, innermost first, keeping that
    it is not allocated and differs from the earlier ones. *)
Ltac name_addresses :=
  repeat match goal with
  | |- context [fresh (dom ?h)] =>
      lazymatch h with
      | context [fresh _] => fail
      | _ =>
          let a := fresh "a" in
          let Ha := fresh "Ha" in
          pose proof (proj1 (not_elem_of_dom h (fresh (dom h)))
                        (is_fresh (dom h))) as Ha;
          set (a := fresh (dom h)) in *; clearbody a;
          repeat match goal with
          | X : <[_ := _]> _ !! _ = None |- _ =>
              apply lookup_insert_None in X as [X ?]
          end
      end
  end.

(** A lookup in a heap from which every allocation made since [h] has
    been released again. *)
Ltac released :=
  repeat match goal with
  | |- delete ?a _ !! ?k = _ =>
      destruct (decide (a = k)) as [<- |];
      [ rewrite lookup_delete_eq; symmetry; assumption
      | rewrite lookup_delete_ne by assumption ]
  | |- <[?a := _]> _ !! ?k = _ => rewrite lookup_insert_ne by assumption
  end;
  reflexivity.

Ltac not_failed :=
  cbv beta iota;
  rewrite (decide_False (P := 0 ≠ cudaSuccess))
    by (let X := fresh in intros X; exact (X eq_refl)).

Section Device_runs.

Variable E : Environment.

Lemma device_solve_success (A b AtA : Eigen.Matrix) (m : Machine) :
  (forall n, (n < 14)%nat -> status E (n + calls m) = 0) ->
  exists m',
    device_solve E A b AtA m =
      (Returns (chol_singularity E,
                map (chol_x E) (seq 0 (Eigen.cols A))), m') /\
    heap m' = heap m /\ this m' = this m.
Proof.
  intros H. eexists. split.
  - unfold device_solve, EigenSparseToCuSparseTranspose.
    do 9 step H.
    step H. not_failed.
    step H. not_failed.
    step H. not_failed.
    do 11 step H.
    step H.
    step H.
    step H.
    do 12 step H.
    do 10 step H.
    reflexivity.
  - machine_simpl. split; [| reflexivity].
    name_addresses. apply map_eq; intros k. released.
Qed.


Lemma bind_inv {A B : Type} (c : M A) (f : A -> M B) m b m' :
  (c ≫= f) m = (Returns b, m') ->
  exists a m1, c m = (Returns a, m1) /\ f a m1 = (Returns b, m').
Proof.
  unfold mbind, M_bind. destruct (c m) as [[a | e |] m1]; intros Hr;
    [eauto | discriminate | discriminate].
Qed.

(** What a returning run of the device stage returns. *)
Lemma device_solve_Returns (A b AtA : Eigen.Matrix) (m m' : Machine) s x :
  device_solve E A b AtA m = (Returns (s, x), m') ->
  s = chol_singularity E /\ x = map (chol_x E) (seq 0 (Eigen.cols A)).
Proof.
  unfold device_solve. intros Hrun.
  repeat (apply bind_inv in Hrun as (? & ? & ? & Hrun); cbv beta in Hrun).
  match goal with
  | Hchol : cusolverSpDcsrlsvchol _ _ _ _ = _ |- _ =>
      unfold cusolverSpDcsrlsvchol in Hchol; injection Hchol as <- _
  end.
  cbv beta iota in Hrun.
  repeat (apply bind_inv in Hrun as (? & ? & _ & Hrun); cbv beta in Hrun).
  injection Hrun as <- <- _. split; reflexivity.
Qed.



Ltac throws lem Hne :=
  machine_simpl; rewrite ?bind_assoc;
  etransitivity; [ apply bind_Throws; apply lem; exact Hne | reflexivity ].

Ltac grown :=
  machine_simpl; name_addresses;
  split;
  [ rewrite !map_size_insert_None
      by (rewrite ?lookup_insert_ne by assumption; assumption);
    lia
  | split;
    [ repeat (etransitivity;
              [| apply insert_subseteq;
                 rewrite ?lookup_insert_ne by assumption; assumption ]);
      reflexivity
    | reflexivity ] ].

Lemma device_solve_late_failure (A b AtA : Eigen.Matrix) (m : Machine)
    (k : nat) (code : Z) :
  (k = 11 \/ k = 12 \/ k = 13)%nat ->
  (forall n, (n < k)%nat -> status E (n + calls m) = 0) ->
  status E (k + calls m) = code -> code ≠ 0 ->
  exists m',
    device_solve E A b AtA m =
      (Throws (runtime_error
         (late_prefix k +:+ to_string code +:+ " at "
            +:+ ____LOCATION E (late_site k))), m') /\
    size (heap m') = (size (heap m) + 5)%nat /\ heap m ⊆ heap m' /\
    this m' = this m.
Proof.
  intros Hk H Hcode Hne.
  destruct Hk as [-> | [-> | ->]]; cbn [Nat.add] in Hcode;
    cbn [late_prefix late_site]; eexists.
  - split.
    { unfold device_solve, EigenSparseToCuSparseTranspose.
      do 9 step H. do 3 (step H; not_failed). do 11 step H. do 6 step H.
      machine_simpl. rewrite Hcode.
      throws checkCUDAError_failure Hne. }
    grown.
  - split.
    { unfold device_solve, EigenSparseToCuSparseTranspose.
      do 9 step H. do 3 (step H; not_failed). do 11 step H. do 11 step H.
      machine_simpl. rewrite Hcode.
      throws checkCuSolverError_failure Hne. }
    grown.
  - split.
    { unfold device_solve, EigenSparseToCuSparseTranspose.
      do 9 step H. do 3 (step H; not_failed). do 11 step H. do 14 step H.
      machine_simpl. rewrite Hcode.
      throws checkCUDAError_failure Hne. }
    grown.
Qed.



(** C1 (the code does not do what the claim says).  When the allocation
    number [k] of the upload fails, [k] being 1 (the column indices) or 2
    (the values), the upload throws; before that it calls [cudaFree] once
    per earlier allocation, but on the address of the caller's pointer
    variable ([row], [col]) instead of the buffer ([*row], [*col]), so
    every call is answered [cudaErrorInvalidValue] and releases nothing:
    the [k] buffers allocated before the failure are still allocated
    when the exception propagates.  Nothing is allocated after the
    failing allocation and nothing is released twice. *)
Theorem upload_allocation_failure (mat : Eigen.Matrix) (row col val : HostVar)
    (m : Machine) (k : nat) (code : Z) :
  (k = 1 \/ k = 2)%nat ->
  device_succeeds E m k ->
  status E (k + calls m) = code -> code ≠ 0 ->
  exists m',
    EigenSparseToCuSparseTranspose E mat row col val m =
      (Throws (runtime_error "cudaMalloc error: out of memory?"), m') /\
    take k (log m') =
      (fun v => ev_cudaFree (host v) cudaErrorInvalidValue)
        <$> reverse (take k [row; col]) /\
    size (heap m') = (size (heap m) + k)%nat /\ heap m ⊆ heap m' /\
    this m' = this m.
Proof.
  intros Hk H Hcode Hne. unfold device_succeeds in H.
  destruct Hk as [-> | ->]; cbn [Nat.add] in Hcode; eexists.
  - split.
    { unfold EigenSparseToCuSparseTranspose.
      step H; not_failed.
      machine_simpl.
      etransitivity;
        [ apply bind_Returns, cudaMalloc_failure; machine_simpl;
          rewrite Hcode; exact Hne
        | cbv beta iota ].
      machine_simpl. rewrite Hcode.
      rewrite (decide_True (P := code ≠ cudaSuccess)) by exact Hne.
      step H. reflexivity. }
    split; [reflexivity | grown].
  - split.
    { unfold EigenSparseToCuSparseTranspose.
      do 2 (step H; not_failed).
      machine_simpl.
      etransitivity;
        [ apply bind_Returns, cudaMalloc_failure; machine_simpl;
          rewrite Hcode; exact Hne
        | cbv beta iota ].
      machine_simpl. rewrite Hcode.
      rewrite (decide_True (P := code ≠ cudaSuccess)) by exact Hne.
      do 2 step H. reflexivity. }
    split; [reflexivity | grown].
Qed.

Lemma normal_equations_cols (Ab A b AtA : Eigen.Matrix) :
  normal_equations Ab = (A, b, AtA) ->
  Eigen.cols A = (Eigen.cols Ab - 1)%nat.
Proof. unfold normal_equations. intros [= <- _ _]. reflexivity. Qed.

(** A run of [solve] in CHOLESKY mode on which every device call
    succeeds. *)
Lemma solve_Cholesky_run (gfg : GaussianFactorGraph) (m : Machine) :
  solverType (this m) = CHOLESKY ->
  Eigen.cols (sparseJacobianEigen E gfg (ordering (this m))) ≠ 0%nat ->
  device_succeeds E m 14 ->
  exists m',
    heap m' = heap m /\ this m' = this m /\
    solve E gfg m =
      (if decide (chol_singularity E ≠ -1) then
         Throws (runtime_error
           ("ILS in CUDA Solver, singularity: "
              +:+ to_string (chol_singularity E)))
       else
         match remap (downloaded_x E gfg (ordering (this m))) gfg
                 (ordering (this m)) with
         | Some vv => Returns vv
         | None => Aborts
         end, m').
Proof.
  intros Htype Hcols H. unfold solve, downloaded_x.
  destruct (normal_equations
              (sparseJacobianEigen E gfg (ordering (this m))))
    as [[A b] AtA] eqn:Hne.
  apply normal_equations_cols in Hne as HA.
  destruct (device_solve_success A b AtA m H) as (m' & Hrun & Hheap & Hthis).
  exists m'. split; [exact Hheap |]. split; [exact Hthis |].
  etransitivity; [apply bind_Returns; reflexivity | cbv beta].
  rewrite Htype. rewrite decide_False by exact Hcols. rewrite Hne.
  etransitivity; [apply bind_Returns; exact Hrun | cbv beta iota].
  rewrite HA.
  destruct (decide (chol_singularity E ≠ -1)); [reflexivity |].
  destruct (remap _ gfg (ordering (this m))); reflexivity.
Qed.

(** What a returning run of [solve] went through. *)
Lemma solve_Returns (gfg : GaussianFactorGraph) (m m' : Machine) vv :
  solve E gfg m = (Returns vv, m') ->
  solverType (this m) = CHOLESKY /\
  Eigen.cols (sparseJacobianEigen E gfg (ordering (this m))) ≠ 0%nat /\
  chol_singularity E = -1 /\
  remap (downloaded_x E gfg (ordering (this m))) gfg (ordering (this m))
    = Some vv.
Proof.
  unfold solve, downloaded_x. intros Hrun.
  apply bind_inv in Hrun as (self & m1 & Hself & Hrun).
  injection Hself as <- <-.
  destruct (solverType (this m)); [discriminate |].
  case_decide as Hcols; [discriminate |].
  destruct (normal_equations
              (sparseJacobianEigen E gfg (ordering (this m))))
    as [[A b] AtA] eqn:Hne.
  apply normal_equations_cols in Hne as HA.
  apply bind_inv in Hrun as ([s x] & m2 & Hdev & Hrun).
  apply device_solve_Returns in Hdev as [-> ->].
  case_decide as Hs; [discriminate |].
  rewrite HA in Hrun.
  destruct (remap _ gfg (ordering (this m))) as [vv' |]; [| discriminate].
  injection Hrun as <- _.
  split; [reflexivity |]. split; [exact Hcols |]. split; [| reflexivity].
  destruct (decide (chol_singularity E = -1)); [assumption | contradiction].
Qed.



Lemma remap_well_formed (x : Vector) (gfg : GaussianFactorGraph)
    (o : Ordering) :
  (forall k, referenced gfg k -> k ∈ o) ->
  (total_columns (dimensions gfg) o < 2 ^ 64)%N ->
  length x = N.to_nat (total_columns (dimensions gfg) o) ->
  is_Some (remap x gfg o).
Proof.
  intros Hsub Hbound Hlen. apply remap_is_Some. intros k Hor.
  assert (Hin : k ∈ o) by (destruct Hor; auto).
  pose proof (column_offsets_in_range o (dimensions gfg) k Hbound Hin).
  lia.
Qed.

Lemma length_downloaded_x (gfg : GaussianFactorGraph) (o : Ordering) (n : nat) :
  Eigen.cols (sparseJacobianEigen E gfg o) = (n + 1)%nat ->
  length (downloaded_x E gfg o) = n.
Proof.
  intros Hc. unfold downloaded_x. rewrite length_map, length_seq. lia.
Qed.

(** C2 (the code does not do what the claim says).  When the copy of [b]
    to the device, the Cholesky solve or the copy of [x] back answers a
    status [code] other than success, [solve] throws a runtime error
    whose text carries the status code and the call site, but it does so
    without a single [cudaFree]: the five buffers acquired earlier in
    the call are still allocated when the exception propagates. *)
Theorem solve_device_error_keeps_buffers (gfg : GaussianFactorGraph)
    (m : Machine) (k : nat) (code : Z) :
  solverType (this m) = CHOLESKY ->
  Eigen.cols (sparseJacobianEigen E gfg (ordering (this m))) ≠ 0%nat ->
  (k = 11 \/ k = 12 \/ k = 13)%nat ->
  device_succeeds E m k ->
  status E (k + calls m) = code -> code ≠ 0 ->
  exists m',
    solve E gfg m =
      (Throws (runtime_error
         (late_prefix k +:+ to_string code +:+ " at "
            +:+ ____LOCATION E (late_site k))), m') /\
    size (heap m') = (size (heap m) + 5)%nat /\ heap m ⊆ heap m'.
Proof.
  intros Htype Hcols Hk H Hcode Hne. unfold solve.
  destruct (normal_equations
              (sparseJacobianEigen E gfg (ordering (this m))))
    as [[A b] AtA] eqn:Heq.
  destruct (device_solve_late_failure A b AtA m k code Hk H Hcode Hne)
    as (m' & Hrun & Hsize & Hsub & _).
  exists m'. split; [| split; assumption].
  etransitivity; [apply bind_Returns; reflexivity | cbv beta].
  rewrite Htype. rewrite decide_False by exact Hcols. rewrite Heq.
  apply bind_Throws, Hrun.
Qed.

(** C3 (amended).  In CHOLESKY mode, on a run on which the device calls
    up to and including the Cholesky solve answer success, what follows
    depends first on the copy of [x] back to the host, which is made and
    checked before the singularity index is looked at.  When that copy
    answers success too: if the index the primitive reported is not
    [-1], [solve] throws a runtime error whose text ends with that
    index, returns no mapping, and the device heap is what it was before
    the call, the five buffers having been released before the throw; if
    the index is [-1], [solve] goes on to the result mapping with the
    heap restored likewise, and it returns a mapping whenever the
    assembled system has one column per unit of dimension of the
    ordering plus the right-hand side and every referenced variable is
    in the ordering.  When that copy answers another status, [solve]
    throws the runtime error of the check of line 164, with that status,
    whatever the index is: no singularity is reported and no mapping is
    returned. *)
Theorem solve_singularity (gfg : GaussianFactorGraph) (m : Machine) :
  solverType (this m) = CHOLESKY ->
  Eigen.cols (sparseJacobianEigen E gfg (ordering (this m))) ≠ 0%nat ->
  device_succeeds E m 13 ->
  let o := ordering (this m) in
  (status E (13 + calls m) = 0 ->
   (chol_singularity E ≠ -1 ->
    exists m',
      solve E gfg m =
        (Throws (runtime_error
           ("ILS in CUDA Solver, singularity: "
              +:+ to_string (chol_singularity E))), m') /\
      heap m' = heap m) /\
   (chol_singularity E = -1 ->
    exists m',
      solve E gfg m =
        (match remap (downloaded_x E gfg o) gfg o with
         | Some vv => Returns vv
         | None => Aborts
         end, m') /\
      heap m' = heap m) /\
   (chol_singularity E = -1 ->
    (forall k, referenced gfg k -> k ∈ o) ->
    (total_columns (dimensions gfg) o < 2 ^ 64)%N ->
    Eigen.cols (sparseJacobianEigen E gfg o) =
      (N.to_nat (total_columns (dimensions gfg) o) + 1)%nat ->
    exists vv m', solve E gfg m = (Returns vv, m') /\ heap m' = heap m)) /\
  (forall code,
     status E (13 + calls m) = code -> code ≠ 0 ->
     exists m',
       solve E gfg m =
         (Throws (runtime_error
            ("cudaMalloc error " +:+ to_string code +:+ " at "
               +:+ ____LOCATION E 164)), m')).
Proof.
  intros Htype Hcols H13 o. split.
  - intros H0.
    assert (H : device_succeeds E m 14).
    { intros n Hn. destruct (decide (n = 13%nat)) as [-> | Hne]; [exact H0 |].
      apply H13. lia. }
    destruct (solve_Cholesky_run gfg m Htype Hcols H)
      as (m' & Hheap & _ & Hrun).
    fold o in Hrun.
    split; [| split].
    + intros Hs. exists m'. rewrite decide_True in Hrun by exact Hs. auto.
    + intros Hs. exists m'.
      rewrite decide_False in Hrun by (intros Hn; exact (Hn Hs)). auto.
    + intros Hs Hsub Hbound Hshape.
      rewrite decide_False in Hrun by (intros Hn; exact (Hn Hs)).
      destruct (remap_well_formed (downloaded_x E gfg o) gfg o Hsub Hbound)
        as [vv Hvv].
      { apply length_downloaded_x, Hshape. }
      rewrite Hvv in Hrun. eauto.
  - intros code Hcode Hne. unfold solve.
    destruct (normal_equations
                (sparseJacobianEigen E gfg (ordering (this m))))
      as [[A b] AtA] eqn:Heq.
    destruct (device_solve_late_failure A b AtA m 13 code
                (or_intror (or_intror eq_refl)) H13 Hcode Hne)
      as (m' & Hrun & _).
    exists m'.
    etransitivity; [apply bind_Returns; reflexivity | cbv beta].
    rewrite Htype. rewrite decide_False by exact Hcols. rewrite Heq.
    apply bind_Throws, Hrun.
Qed.

(** C4.  With the QR solver type, [solve] throws at once, whatever the
    graph: the machine is left exactly as it was, so no device call was
    made, nothing was allocated, and the solver object is unchanged.  The
    build without the device support throws at once as well. *)
Theorem solve_QR_rejected (gfg : GaussianFactorGraph) (m : Machine) :
  solverType (this m) = QR ->
  solve E gfg m =
    (Throws (invalid_argument "This solver does not support QR."), m) /\
  solve_without_cusparse gfg m =
    (Throws (invalid_argument
       "This GTSAM is compiled without Cholmod support"), m).
Proof.
  intros Htype. split; [| reflexivity]. unfold solve.
  etransitivity; [apply bind_Returns; reflexivity | cbv beta].
  rewrite Htype. reflexivity.
Qed.

(** C7 (amended).  For every run of [solve] that returns a mapping [vv]:
    [vv] has exactly one entry for every variable that some factor
    references or that the ordering lists, and no other entry; an
    ordering variable that no factor references has the empty segment;
    every entry is the slice of the downloaded solution that starts at
    the variable's column offset and has the variable's recorded
    dimension as its length; and when the keys of the ordering are
    distinct and the assembled system has one column per unit of
    dimension plus the right-hand side, the segments concatenated in
    ordering order are the downloaded solution. *)
Theorem solve_result_mapping (gfg : GaussianFactorGraph) (m m' : Machine)
    (vv : VectorValues) :
  solve E gfg m = (Returns vv, m') ->
  let o := ordering (this m) in
  let dims := dimensions gfg in
  let x := downloaded_x E gfg o in
  let offset k := value_at (column_offsets o dims) k in
  (forall k, is_Some (vv !! k) <-> referenced gfg k \/ k ∈ o) /\
  (forall k, k ∈ o -> ~ referenced gfg k -> vv !! k = Some []) /\
  (forall k s, vv !! k = Some s ->
     length s = N.to_nat (value_at dims k) /\
     s = take (N.to_nat (value_at dims k)) (drop (N.to_nat (offset k)) x)) /\
  (NoDup o ->
   (total_columns dims o < 2 ^ 64)%N ->
   Eigen.cols (sparseJacobianEigen E gfg o) =
     (N.to_nat (total_columns dims o) + 1)%nat ->
   concat (map (fun k => default [] (vv !! k)) o) = x).
Proof.
  intros Hrun o dims x offset.
  apply solve_Returns in Hrun as (_ & _ & _ & Hremap).
  fold o in Hremap. fold x in Hremap.
  destruct (remap_result x gfg o vv Hremap) as (Hdom & Hseg & Hempty & Hcat).
  split; [exact Hdom |]. split; [exact Hempty |]. split.
  - intros k s Hk. destruct (Hseg k s Hk) as (Hlen & Heq & _). auto.
  - intros Hnd Hbound Hshape. apply Hcat; [assumption .. |].
    apply length_downloaded_x, Hshape.
Qed.

End Device_runs.

(* --------------------------------------------------------------------- *)
(** ** The claims at concrete inputs                                      *)
(* --------------------------------------------------------------------- *)

Lemma example_device_succeeds (singularity : Z) (m : Machine) (k : nat) :
  device_succeeds (example_environment (fun _ => 0) singularity) m k.
Proof. intros n _. reflexivity. Qed.

Lemma fail_at_device_succeeds (k : nat) (code singularity : Z)
    (type : CuSparseSolverType) (o : Ordering) :
  device_succeeds (example_environment (fail_at k code) singularity)
    (fresh_machine type o) k.
Proof.
  intros n Hn. cbn [status example_environment calls fresh_machine].
  unfold fail_at. rewrite decide_False by lia. reflexivity.
Qed.

Lemma example_cols_nonzero (statuses : nat -> Z) (singularity : Z)
    (gfg : GaussianFactorGraph) (o : Ordering) :
  Eigen.cols (sparseJacobianEigen (example_environment statuses singularity)
                gfg o) ≠ 0%nat.
Proof. cbn [sparseJacobianEigen example_environment Eigen.cols]. lia. Qed.

Lemma example_graph_referenced (k : Key) :
  referenced example_graph k -> k ∈ [0; 1]%N.
Proof.
  unfold example_graph. intros Hk.
  apply (proj1 (referenced_cons_Some _ _ _)) in Hk.
  destruct Hk as [Hk | Hk].
  { cbn [keys] in Hk. apply elem_of_cons. apply elem_of_cons in Hk.
    destruct Hk as [-> | Hk]; [auto |].
    apply elem_of_nil in Hk. contradiction. }
  apply (proj1 (referenced_cons_None _ _)) in Hk.
  apply (proj1 (referenced_cons_Some _ _ _)) in Hk.
  destruct Hk as [Hk | Hk]; [exact Hk |].
  exfalso. exact (referenced_nil k Hk).
Qed.

Lemma upload_allocation_failure_witness :
  exists m',
    EigenSparseToCuSparseTranspose (example_environment (fail_at 1 2) (-1))
      example_Ab AtA_row AtA_col AtA_val (fresh_machine CHOLESKY []) =
      (Throws (runtime_error "cudaMalloc error: out of memory?"), m') /\
    take 1 (log m') =
      (fun v => ev_cudaFree (host v) cudaErrorInvalidValue)
        <$> reverse (take 1 [AtA_row; AtA_col]) /\
    size (heap m') = (size (heap (fresh_machine CHOLESKY [])) + 1)%nat /\
    heap (fresh_machine CHOLESKY []) ⊆ heap m' /\
    this m' = this (fresh_machine CHOLESKY []).
Proof.
  apply (upload_allocation_failure (example_environment (fail_at 1 2) (-1))
           example_Ab AtA_row AtA_col AtA_val (fresh_machine CHOLESKY [])
           1 2).
  - left. reflexivity.
  - apply fail_at_device_succeeds.
  - reflexivity.
  - discriminate.
Defined.

(** The same input, evaluated: the row buffer, of [4 * (3 + 1)] bytes,
    is the one allocation of the heap when the exception leaves the
    upload, and the only [cudaFree] was given the address of the pointer
    variable. *)
Example upload_column_failure_evaluated :
  let run :=
    EigenSparseToCuSparseTranspose (example_environment (fail_at 1 2) (-1))
      example_Ab AtA_row AtA_col AtA_val (fresh_machine CHOLESKY []) in
  run.1 = Throws (runtime_error "cudaMalloc error: out of memory?") /\
  heap run.2 = {[ 0%N := 16 ]} /\
  stack run.2 AtA_row = dev 0 /\
  log run.2 =
    [ ev_cudaFree (host AtA_row) cudaErrorInvalidValue;
      ev_cudaMalloc AtA_col 0 2;
      ev_cudaMalloc AtA_row 16 0 ].
Proof. vm_compute. repeat split. Qed.

Lemma solve_device_error_keeps_buffers_witness :
  exists m',
    solve (example_environment (fail_at 11 4) (-1)) example_graph
      (fresh_machine CHOLESKY [0; 1]%N) =
      (Throws (runtime_error
         (late_prefix 11 +:+ to_string 4 +:+ " at "
            +:+ ____LOCATION (example_environment (fail_at 11 4) (-1))
                  (late_site 11))), m') /\
    size (heap m') =
      (size (heap (fresh_machine CHOLESKY [0; 1]%N)) + 5)%nat /\
    heap (fresh_machine CHOLESKY [0; 1]%N) ⊆ heap m'.
Proof.
  apply (solve_device_error_keeps_buffers
           (example_environment (fail_at 11 4) (-1)) example_graph
           (fresh_machine CHOLESKY [0; 1]%N) 11 4).
  - reflexivity.
  - apply example_cols_nonzero.
  - left. reflexivity.
  - apply fail_at_device_succeeds.
  - reflexivity.
  - discriminate.
Defined.

(** The same input, evaluated: the text of the exception, and the five
    buffers still on the device heap. *)
Example solve_copy_failure_evaluated :
  let run :=
    solve (example_environment (fail_at 11 4) (-1)) example_graph
      (fresh_machine CHOLESKY [0; 1]%N) in
  run.1 =
    Throws (runtime_error "cudaMalloc error 4 at CuSparseSolver.cpp : 147") /\
  heap run.2 = {[ 0%N := 24; 1%N := 0; 2%N := 0; 3%N := 40; 4%N := 40 ]}.
Proof. vm_compute. repeat split. Qed.

Lemma solve_singularity_witness :
  (exists m',
     solve (example_environment (fun _ => 0) 3) example_graph
       (fresh_machine CHOLESKY [0; 1]%N) =
       (Throws (runtime_error
          ("ILS in CUDA Solver, singularity: " +:+ to_string 3)), m') /\
     heap m' = heap (fresh_machine CHOLESKY [0; 1]%N)) /\
  (exists vv m',
     solve (example_environment (fun _ => 0) (-1)) example_graph
       (fresh_machine CHOLESKY [0; 1]%N) = (Returns vv, m') /\
     heap m' = heap (fresh_machine CHOLESKY [0; 1]%N)) /\
  (exists m',
     solve (example_environment (fail_at 13 4) 3) example_graph
       (fresh_machine CHOLESKY [0; 1]%N) =
       (Throws (runtime_error
          ("cudaMalloc error " +:+ to_string 4 +:+ " at "
             +:+ ____LOCATION (example_environment (fail_at 13 4) 3) 164)),
        m')).
Proof.
  split; [| split].
  - refine (proj1 (proj1 (solve_singularity
                            (example_environment (fun _ => 0) 3)
                            example_graph (fresh_machine CHOLESKY [0; 1]%N)
                            eq_refl _ _) eq_refl) _).
    + apply example_cols_nonzero.
    + apply example_device_succeeds.
    + discriminate.
  - refine (proj2 (proj2 (proj1
             (solve_singularity (example_environment (fun _ => 0) (-1))
                example_graph (fresh_machine CHOLESKY [0; 1]%N)
                eq_refl _ _) eq_refl)) eq_refl _ _ _).
    + apply example_cols_nonzero.
    + apply example_device_succeeds.
    + apply example_graph_referenced.
    + vm_compute. reflexivity.
    + reflexivity.
  - refine (proj2 (solve_singularity (example_environment (fail_at 13 4) 3)
                     example_graph (fresh_machine CHOLESKY [0; 1]%N)
                     eq_refl _ _) 4 eq_refl _).
    + apply example_cols_nonzero.
    + apply fail_at_device_succeeds.
    + discriminate.
Defined.

(** C3 as it was stated fails: the primitive reports the index 3, the
    copy of [x] that follows answers the status 4, and [solve] throws
    the error of that copy, which does not mention the index; the five
    buffers are still allocated.  With the index [-1] and the same
    answer of the copy, [solve] throws as well and returns no
    mapping. *)
Lemma solve_singularity_preempted :
  let m := fresh_machine CHOLESKY [0; 1]%N in
  let E3 := example_environment (fail_at 13 4) 3 in
  let E1 := example_environment (fail_at 13 4) (-1) in
  solverType (this m) = CHOLESKY /\
  chol_singularity E3 ≠ -1 /\
  (solve E3 example_graph m).1 =
    Throws (runtime_error "cudaMalloc error 4 at CuSparseSolver.cpp : 164") /\
  size (heap (solve E3 example_graph m).2) = 5%nat /\
  chol_singularity E1 = -1 /\
  (solve E1 example_graph m).1 =
    Throws (runtime_error "cudaMalloc error 4 at CuSparseSolver.cpp : 164").
Proof.
  intros m E3 E1.
  split; [reflexivity |]. split; [discriminate |].
  split; [vm_compute; reflexivity |]. split; [vm_compute; reflexivity |].
  split; [reflexivity |]. vm_compute. reflexivity.
Qed.

Lemma solve_QR_rejected_witness :
  solve (example_environment (fun _ => 0) (-1)) []
    (fresh_machine QR []) =
    (Throws (invalid_argument "This solver does not support QR."),
     fresh_machine QR []).
Proof.
  exact (proj1 (solve_QR_rejected (example_environment (fun _ => 0) (-1)) []
                  (fresh_machine QR []) eq_refl)).
Defined.

(** C7 as it was stated fails: with the ordering [0; 1; 5] on the
    example graph, which references the variables 0 and 1 only, [solve]
    returns a mapping in which variable 5 is present, with the empty
    segment. *)
Lemma solve_unreferenced_variable_present :
  exists vv m',
    solve (example_environment (fun _ => 0) (-1)) example_graph
      (fresh_machine CHOLESKY [0; 1; 5]%N) = (Returns vv, m') /\
    ~ referenced example_graph 5%N /\
    vv !! 5%N = Some [] /\
    ~ only_referenced example_graph vv.
Proof.
  destruct (solve_Cholesky_run (example_environment (fun _ => 0) (-1))
              example_graph (fresh_machine CHOLESKY [0; 1; 5]%N) eq_refl)
    as (m' & _ & _ & Hrun).
  { apply example_cols_nonzero. }
  { apply example_device_succeeds. }
  rewrite decide_False in Hrun by (intros Hn; exact (Hn eq_refl)).
  assert (Hremap :
    remap (downloaded_x (example_environment (fun _ => 0) (-1)) example_graph
             [0; 1; 5]%N) example_graph [0; 1; 5]%N =
    Some {[ 0%N := [0; 0]%R; 1%N := [0; 0; 0]%R; 5%N := [] ]})
    by (vm_compute; reflexivity).
  cbn [this fresh_machine CuSparseSolver_new ordering] in Hrun.
  rewrite Hremap in Hrun.
  assert (Hnot : ~ referenced example_graph 5%N).
  { intros Href. apply example_graph_referenced in Href.
    apply elem_of_cons in Href as [Heq | Href]; [discriminate |].
    apply elem_of_cons in Href as [Heq | Href]; [discriminate |].
    apply elem_of_nil in Href. exact Href. }
  eexists _, m'. split; [exact Hrun |]. split; [exact Hnot |].
  split; [reflexivity |].
  intros Honly. apply Hnot, Honly. eexists. reflexivity.
Qed.

Lemma solve_result_mapping_witness :
  exists vv m',
    solve (example_environment (fun _ => 0) (-1)) example_graph
      (fresh_machine CHOLESKY [0; 1]%N) = (Returns vv, m') /\
    (forall k, is_Some (vv !! k) <->
       referenced example_graph k \/ k ∈ [0; 1]%N) /\
    concat (map (fun k => default [] (vv !! k)) [0; 1]%N) =
      downloaded_x (example_environment (fun _ => 0) (-1)) example_graph
        [0; 1]%N.
Proof.
  destruct (solve_Cholesky_run (example_environment (fun _ => 0) (-1))
              example_graph (fresh_machine CHOLESKY [0; 1]%N) eq_refl)
    as (m' & _ & _ & Hrun).
  { apply example_cols_nonzero. }
  { apply example_device_succeeds. }
  rewrite decide_False in Hrun by (intros Hn; exact (Hn eq_refl)).
  assert (Hremap :
    remap (downloaded_x (example_environment (fun _ => 0) (-1)) example_graph
             [0; 1]%N) example_graph [0; 1]%N =
    Some {[ 0%N := [0; 0]%R; 1%N := [0; 0; 0]%R ]})
    by (vm_compute; reflexivity).
  cbn [this fresh_machine CuSparseSolver_new ordering] in Hrun.
  rewrite Hremap in Hrun.
  eexists _, m'. split; [exact Hrun |].
  destruct (solve_result_mapping _ _ _ _ _ Hrun) as (Hdom & _ & _ & Hcat).
  split; [exact Hdom |].
  apply Hcat.
  - compute_done.
  - vm_compute. reflexivity.
  - reflexivity.
Defined.

(* ===================================================================== *)
(** * More on the normal equations                                        *)
(* ===================================================================== *)

Section More_normal_equations_facts.

Import Eigen.
Local Open Scope R_scope.

Lemma dot_S (n : nat) (f g : nat -> R) :
  dot (S n) f g =
    f 0%nat * g 0%nat + dot n (fun k => f (S k)) (fun k => g (S k)).
Proof.
  unfold dot. cbn [seq foldr]. f_equal.
  rewrite <- fmap_S_seq, foldr_fmap. reflexivity.
Qed.

Lemma dot_0 (f g : nat -> R) : dot 0 f g = 0.
Proof. reflexivity. Qed.

Lemma dot_comm (n : nat) (f g : nat -> R) : dot n f g = dot n g f.
Proof.
  revert f g. induction n as [| n IH]; intros f g; [reflexivity |].
  rewrite !dot_S, IH. ring.
Qed.

Lemma dot_nonneg (n : nat) (f : nat -> R) : 0 <= dot n f f.
Proof.
  revert f. induction n as [| n IH]; intros f; [rewrite dot_0; lra |].
  rewrite dot_S. specialize (IH (fun k => f (S k))). cbn beta in IH. nra.
Qed.

Lemma dot_zero_r (n : nat) (f g : nat -> R) :
  (forall k, g k = 0) -> dot n f g = 0.
Proof.
  revert f g. induction n as [| n IH]; intros f g Hg; [reflexivity |].
  rewrite dot_S, Hg, IH by (intros k; apply Hg). ring.
Qed.

(** The coefficients of the matrix the Cholesky solve is given, read
    through its upper triangle. *)
Lemma normal_matrix_coeff (Ab : Matrix) (i j : nat) :
  coeff (selfadjointView_Upper (normal_matrix Ab)) i j =
    dot (rows (system_matrix Ab))
      (fun k => coeff (system_matrix Ab) k i)
      (fun k => coeff (system_matrix Ab) k j).
Proof.
  unfold normal_matrix, system_matrix, normal_equations.
  cbn [selfadjointView_Upper block transpose mul col zero upper
       rankUpdate_Upper rows cols coeff fst snd].
  destruct (i <=? j)%nat eqn:Hij.
  - rewrite Rplus_0_l, Rmult_1_l. reflexivity.
  - assert (Hji : (j <=? i)%nat = true).
    { apply Nat.leb_le. apply Nat.leb_gt in Hij. lia. }
    rewrite Hji. rewrite Rplus_0_l, Rmult_1_l. apply dot_comm.
Qed.

(** X3.  [AtA] stores the upper triangle only; read as a self-adjoint
    matrix, as the Cholesky solve reads it, it is the whole product of
    [A] transposed and [A]: it is symmetric and no coefficient of its
    diagonal is negative. *)
Theorem normal_matrix_selfadjoint (Ab : Matrix) (i j : nat) :
  let A := system_matrix Ab in
  coeff (selfadjointView_Upper (normal_matrix Ab)) i j =
    coeff (mul (transpose A) A) i j /\
  coeff (selfadjointView_Upper (normal_matrix Ab)) i j =
    coeff (selfadjointView_Upper (normal_matrix Ab)) j i /\
  0 <= coeff (normal_matrix Ab) i i.
Proof.
  intros A. split; [apply normal_matrix_coeff |]. split.
  - rewrite !normal_matrix_coeff. apply dot_comm.
  - pose proof (normal_matrix_coeff Ab i i) as Hii.
    cbn [selfadjointView_Upper coeff] in Hii. rewrite Nat.leb_refl in Hii.
    rewrite Hii. apply dot_nonneg.
Qed.

(** X5.  Degenerate systems.  When [Ab] has no rows, every coefficient
    of [AtA] and of the right-hand side is zero, so [solve] hands the
    zero matrix to the Cholesky solve; when the last column of [Ab] is
    zero, the right-hand side is zero. *)
Theorem normal_equations_degenerate (Ab : Matrix) :
  (rows Ab = 0%nat ->
   forall i j, coeff (normal_matrix Ab) i j = 0 /\
               coeff (normal_rhs Ab) i j = 0) /\
  ((forall k, coeff Ab k (cols Ab - 1) = 0) ->
   forall i j, coeff (normal_rhs Ab) i j = 0).
Proof.
  unfold normal_matrix, normal_rhs, normal_equations.
  cbn [block transpose mul col zero upper rankUpdate_Upper rows cols coeff
       fst snd].
  split.
  - intros -> i j. rewrite !dot_0. destruct (i <=? j)%nat; split; ring.
  - intros Hb i j. apply dot_zero_r. intros k. apply Hb.
Qed.

Lemma normal_equations_degenerate_witness :
  coeff (normal_matrix empty_Ab) 0 1 = 0 /\
  coeff (normal_rhs empty_Ab) 0 1 = 0.
Proof.
  exact (proj1 (normal_equations_degenerate empty_Ab) eq_refl 0%nat 1%nat).
Defined.

End More_normal_equations_facts.

(* ===================================================================== *)
(** * More on the dimension map, the offsets and the result mapping       *)
(* ===================================================================== *)

Section More_dimension_facts.

Implicit Types (dims : gmap Key N) (k key : Key) (gfg : GaussianFactorGraph).

Lemma scan_keys_touched factor ks : forall it dims dims' k,
  k ∈ ks ->
  scan_keys factor it ks dims !! k = scan_keys factor it ks dims' !! k.
Proof.
  induction ks as [| key ks IH]; intros it dims dims' k Hin.
  - apply elem_of_nil in Hin. contradiction.
  - cbn [scan_keys]. destruct (decide (k ∈ ks)) as [Hlater | Hlast].
    + apply IH, Hlater.
    + apply elem_of_cons in Hin as [-> | Hin]; [| contradiction].
      rewrite !scan_keys_other by exact Hlast.
      rewrite !lookup_insert_eq. reflexivity.
Qed.

(** What the scan records for a variable the graph references does not
    depend on the map the scan starts from. *)
Lemma scan_factors_touched gfg : forall dims dims' k,
  referenced gfg k ->
  scan_factors gfg dims !! k = scan_factors gfg dims' !! k.
Proof.
  induction gfg as [| [factor |] gfg IH]; intros dims dims' k Href.
  - destruct (referenced_nil k Href).
  - cbn [scan_factors].
    apply (proj1 (referenced_cons_Some _ _ _)) in Href.
    destruct (decide (is_Some (dimensions gfg !! k))) as [Hlater | Hnot];
      rewrite dimensions_is_Some in *.
    + apply IH, Hlater.
    + destruct Href as [Hin | Hlater]; [| contradiction].
      rewrite !scan_factors_other by exact Hnot.
      apply scan_keys_touched, Hin.
  - cbn [scan_factors]. apply IH.
    apply (proj1 (referenced_cons_None _ _)), Href.
Qed.

(** X6.  The dimension map of a graph made of two graphs, one after the
    other: for a variable the second graph references it records what
    the second graph alone records, and for every other variable what
    the first graph alone records. *)
Theorem dimensions_app gfg1 gfg2 k :
  (referenced gfg2 k ->
   dimensions (gfg1 ++ gfg2) !! k = dimensions gfg2 !! k) /\
  (~ referenced gfg2 k ->
   dimensions (gfg1 ++ gfg2) !! k = dimensions gfg1 !! k).
Proof.
  unfold dimensions. rewrite scan_factors_app. split.
  - intros Href. apply scan_factors_touched, Href.
  - intros Hnot. apply scan_factors_other, Hnot.
Qed.

Lemma graph_of_1_referenced k : referenced graph_of_1 k <-> k = 1%N.
Proof.
  unfold graph_of_1. rewrite referenced_cons_Some. cbn [keys]. split.
  - intros [Hk | Hk]; [| destruct (referenced_nil k Hk)].
    apply elem_of_cons in Hk as [-> | Hk]; [reflexivity |].
    apply elem_of_nil in Hk. contradiction.
  - intros ->. left. apply list_elem_of_here.
Qed.

Lemma dimensions_app_witness :
  dimensions (graph_of_0 ++ graph_of_1) !! 1%N = dimensions graph_of_1 !! 1%N /\
  dimensions (graph_of_0 ++ graph_of_1) !! 0%N = dimensions graph_of_0 !! 0%N.
Proof.
  split.
  - apply (proj1 (dimensions_app graph_of_0 graph_of_1 1%N)).
    apply graph_of_1_referenced. reflexivity.
  - apply (proj2 (dimensions_app graph_of_0 graph_of_1 0%N)).
    intros Href. apply graph_of_1_referenced in Href. discriminate.
Defined.

(** X7.  Null factor pointers change nothing: the dimension map of a
    graph is the dimension map of the graph without them. *)
Theorem dimensions_skip_null gfg :
  dimensions gfg = dimensions (filter (fun f => is_Some f) gfg).
Proof.
  unfold dimensions. generalize (∅ : gmap Key N).
  induction gfg as [| [factor |] gfg IH]; intros dims.
  - reflexivity.
  - rewrite filter_cons_True by eauto. cbn [scan_factors]. apply IH.
  - rewrite filter_cons_False by (intros [? ?]; discriminate).
    cbn [scan_factors]. apply IH.
Qed.

End More_dimension_facts.

Section More_offset_facts.

Local Open Scope N_scope.
Implicit Types (dims ci : gmap Key N) (k key : Key) (o : Ordering).

(** The loop of the offsets, whatever the ordering and the dimensions:
    a key outside the ordering keeps what it had, and a key of the
    ordering gets the running sum, kept modulo [2^64], at its last
    occurrence. *)
Lemma column_loop_wrap o : forall ci dims cur,
  (forall k, k ∉ o -> (column_loop o ci dims cur).1 !! k = ci !! k) /\
  (forall i k, o !! i = Some k -> k ∉ drop (S i) o ->
     (column_loop o ci dims cur).1 !! k =
       Some (if i is O then cur
             else (cur + total_columns dims (take i o)) mod 2 ^ 64)).
Proof.
  induction o as [| key o IH]; intros ci dims cur.
  - cbn [column_loop fst]. split; [reflexivity |]. intros i k Hi. discriminate.
  - cbn [column_loop].
    destruct (subscript dims key) as [d dims1] eqn:Hsub.
    assert (Hd : d = value_at dims key)
      by (rewrite <- subscript_fst, Hsub; reflexivity).
    assert (Hdims1 : dims1 = (subscript dims key).2)
      by (rewrite Hsub; reflexivity).
    assert (Htot : forall l, total_columns dims1 l = total_columns dims l).
    { intros l. apply total_columns_ext. intros k. subst dims1.
      apply subscript_snd_total. }
    destruct (IH (<[key := cur]> ci) dims1 (size_add cur d)) as (IHo & IHi).
    split.
    + intros k Hk. apply not_elem_of_cons in Hk as [Hne Hk].
      rewrite IHo by exact Hk. apply lookup_insert_ne. congruence.
    + intros i k Hi Hlast. destruct i as [| i].
      * injection Hi as ->. cbn [drop] in Hlast.
        rewrite IHo by exact Hlast. apply lookup_insert_eq.
      * cbn in Hi. cbn [drop] in Hlast.
        rewrite (IHi i k Hi Hlast). f_equal.
        cbn [take]. rewrite total_columns_cons, <- Hd. unfold size_add.
        destruct i as [| i].
        -- cbn [take total_columns foldr]. rewrite N.add_0_r. reflexivity.
        -- rewrite Htot. rewrite N.Div0.add_mod_idemp_l. f_equal. lia.
Qed.

Lemma column_offsets_outside o dims k :
  k ∉ o -> column_offsets o dims !! k = None.
Proof.
  intros Hk. unfold column_offsets.
  rewrite (proj1 (column_loop_wrap o ∅ dims 0) k Hk). apply lookup_empty.
Qed.

(** X8.  The column offsets for every ordering and every dimension map,
    with no assumption on either: the keys that have an offset are the
    keys of the ordering, and the offset of a key is the sum, modulo
    [2^64], of the dimensions of the entries of the ordering before the
    last occurrence of the key.  A key listed twice thus gets the offset
    of its second occurrence. *)
Theorem column_offsets_any_ordering (o : Ordering) (dims : gmap Key N) :
  (forall k, is_Some (column_offsets o dims !! k) <-> k ∈ o) /\
  (forall i k, o !! i = Some k -> k ∉ drop (S i) o ->
     column_offsets o dims !! k =
       Some (total_columns dims (take i o) mod 2 ^ 64)).
Proof.
  assert (Hin : forall i k, o !! i = Some k -> k ∉ drop (S i) o ->
     column_offsets o dims !! k =
       Some (total_columns dims (take i o) mod 2 ^ 64)).
  { intros i k Hi Hlast. unfold column_offsets.
    rewrite (proj2 (column_loop_wrap o ∅ dims 0) i k Hi Hlast). f_equal.
    destruct i as [| i]; [reflexivity |]. rewrite N.add_0_l. reflexivity. }
  split; [| exact Hin].
  intros k. split.
  - intros Hsome. destruct (decide (k ∈ o)) as [? | Hnot]; [assumption |].
    rewrite (column_offsets_outside o dims k Hnot) in Hsome.
    destruct Hsome; discriminate.
  - intros Hk. destruct (last_occurrence o k Hk) as (i & Hi & Hlast).
    rewrite (Hin i k Hi Hlast). eauto.
Qed.

Lemma column_offsets_any_ordering_witness :
  column_offsets [0; 1; 0] (dimensions example_graph) !! 0 =
    Some (total_columns (dimensions example_graph) (take 2 [0; 1; 0])
            mod 2 ^ 64).
Proof.
  apply (proj2 (column_offsets_any_ordering [0; 1; 0]
                  (dimensions example_graph)) 2%nat 0).
  - reflexivity.
  - cbn [drop]. apply not_elem_of_nil.
Defined.

(** The same input, evaluated: variable 0, listed first and last, gets
    the offset 5 of its last occurrence, and the block of variable 1
    starts at 2. *)
Example repeated_key_offsets :
  column_offsets [0; 1; 0] (dimensions example_graph) = {[ 0 := 5; 1 := 2 ]}.
Proof. vm_compute. reflexivity. Qed.

(** X9.  What the loop of the offsets does to the dimension map: every
    key of the ordering is in the map afterwards, with the dimension it
    had, or with zero when it had none; nothing else changes. *)
Theorem dims_after_offsets_lookup (o : Ordering) (dims : gmap Key N) k :
  dims_after_offsets o dims !! k =
    if decide (k ∈ o) then Some (value_at dims k) else dims !! k.
Proof. apply column_loop_dims. Qed.

End More_offset_facts.

Section More_remap_facts.

Local Open Scope N_scope.
Implicit Types (dims ci : gmap Key N) (k key : Key) (o : Ordering)
  (x : Vector) (vv : VectorValues) (gfg : GaussianFactorGraph).

(** X10.  The result mapping is built, with no failed assertion of
    [segment], exactly when the block of every variable that a factor
    references or the ordering lists ends inside the solution vector. *)
Theorem remap_in_range x gfg o :
  is_Some (remap x gfg o) <->
  forall k, referenced gfg k \/ k ∈ o ->
    value_at (column_offsets o (dimensions gfg)) k
      + value_at (dimensions gfg) k <= N.of_nat (length x).
Proof.
  split.
  - intros [vv Hvv] k Hor.
    destruct (remap_result x gfg o vv Hvv) as (Hdom & Hseg & _).
    destruct (proj2 (Hdom k) Hor) as [s Hs].
    destruct (Hseg k s Hs) as (_ & _ & Hle). exact Hle.
  - apply remap_is_Some.
Qed.

Lemma remap_in_range_witness :
  value_at (column_offsets [0; 1] (dimensions example_graph)) 1
    + value_at (dimensions example_graph) 1
  <= N.of_nat (length [1; 2; 3; 4; 5]%R).
Proof.
  apply (proj1 (remap_in_range [1; 2; 3; 4; 5]%R example_graph [0; 1])).
  - eexists. vm_compute. reflexivity.
  - right. apply list_elem_of_further, list_elem_of_here.
Defined.

(** X11.  A variable that a factor references and the ordering does not
    list has no column offset; the final loop reads zero for it, so its
    segment is the beginning of the solution vector, whatever blocks the
    ordering put there. *)
Theorem remap_variable_outside_ordering x gfg o vv k :
  remap x gfg o = Some vv ->
  referenced gfg k -> k ∉ o ->
  column_offsets o (dimensions gfg) !! k = None /\
  vv !! k = Some (take (N.to_nat (value_at (dimensions gfg) k)) x).
Proof.
  intros Hvv Href Hout.
  pose proof (column_offsets_outside o (dimensions gfg) k Hout) as Hnone.
  split; [exact Hnone |].
  destruct (remap_result x gfg o vv Hvv) as (Hdom & Hseg & _).
  destruct (proj2 (Hdom k) (or_introl Href)) as [s Hs].
  destruct (Hseg k s Hs) as (_ & Heq & _).
  unfold value_at at 2 in Heq. rewrite Hnone in Heq.
  cbn [from_option] in Heq.
  change (N.to_nat 0) with 0%nat in Heq.
  rewrite drop_0 in Heq. congruence.
Qed.

Lemma remap_variable_outside_ordering_witness :
  remap [1; 2; 3]%R example_graph [0] =
    Some {[ 0 := [1; 2]%R; 1 := [1; 2; 3]%R ]} /\
  column_offsets [0] (dimensions example_graph) !! 1 = None /\
  ({[ 0 := [1; 2]%R; 1 := [1; 2; 3]%R ]} : VectorValues) !! 1 =
    Some (take (N.to_nat (value_at (dimensions example_graph) 1))
            [1; 2; 3]%R).
Proof.
  assert (Hremap : remap [1; 2; 3]%R example_graph [0] =
                     Some {[ 0 := [1; 2]%R; 1 := [1; 2; 3]%R ]})
    by (vm_compute; reflexivity).
  split; [exact Hremap |].
  apply (remap_variable_outside_ordering _ _ _ _ 1 Hremap).
  - exists (mkFactor [0; 1] (fun it => match it with O => 2 | _ => 3 end)).
    split; [| apply list_elem_of_further, list_elem_of_here].
    unfold example_graph.
    apply list_elem_of_further, list_elem_of_further, list_elem_of_here.
  - intros Hin. apply elem_of_cons in Hin as [Heq | Hin]; [discriminate |].
    apply elem_of_nil in Hin. exact Hin.
Defined.

(** X12.  For an ordering of distinct keys whose total dimension fits
    [size_t], the segments of the result, taken in ordering order and
    laid end to end, are the first entries of the solution vector, as
    many as the total dimension: what the solution vector holds beyond
    that is in no segment of the ordering. *)
Theorem remap_concat_prefix x gfg o vv :
  remap x gfg o = Some vv ->
  NoDup o ->
  total_columns (dimensions gfg) o < 2 ^ 64 ->
  concat (map (fun k => default [] (vv !! k)) o) =
    take (N.to_nat (total_columns (dimensions gfg) o)) x.
Proof.
  intros Hvv Hnd Hbound.
  destruct (remap_result x gfg o vv Hvv) as (Hdom & Hseg & _).
  rewrite (concat_blocks (dimensions gfg) x o 0
             (fun k => default [] (vv !! k))); [reflexivity |].
  intros i k Hi.
  destruct (proj2 (Hdom k)) as [s Hs];
    [right; apply list_elem_of_lookup; eauto |].
  rewrite Hs. cbn [from_option]. unfold Datatypes.id.
  destruct (Hseg k s Hs) as (_ & -> & _).
  rewrite (column_offsets_total o (dimensions gfg) i k Hnd Hbound Hi).
  rewrite N.add_0_l. reflexivity.
Qed.

Lemma remap_concat_prefix_witness :
  remap [1; 2; 3; 4; 5; 6]%R example_graph [0; 1] =
    Some {[ 0 := [1; 2]%R; 1 := [3; 4; 5]%R ]} /\
  concat (map (fun k => default []
                 (({[ 0 := [1; 2]%R; 1 := [3; 4; 5]%R ]} : VectorValues)
                    !! k)) [0; 1]) =
    take (N.to_nat (total_columns (dimensions example_graph) [0; 1]))
      [1; 2; 3; 4; 5; 6]%R.
Proof.
  assert (Hremap : remap [1; 2; 3; 4; 5; 6]%R example_graph [0; 1] =
                     Some {[ 0 := [1; 2]%R; 1 := [3; 4; 5]%R ]})
    by (vm_compute; reflexivity).
  split; [exact Hremap |].
  apply (remap_concat_prefix _ _ _ _ Hremap).
  - compute_done.
  - vm_compute. reflexivity.
Defined.

End More_remap_facts.

(* ===================================================================== *)
(** * More on the status checks                                           *)
(* ===================================================================== *)

Section Text_facts.

Lemma decimal_of_Z_normal (z : Z) :
  Z.to_int z <> Decimal.Pos Decimal.Nil /\
  Z.to_int z <> Decimal.Neg Decimal.Nil.
Proof.
  pose proof (DecimalZ.to_of (Z.to_int z)) as Hn.
  rewrite DecimalZ.of_to in Hn.
  split; intros Hz; rewrite Hz in Hn; discriminate.
Qed.

(** [std::to_string] gives different integers different texts. *)
Lemma to_string_inj (a b : Z) : to_string a = to_string b -> a = b.
Proof.
  unfold to_string. intros H.
  destruct (decimal_of_Z_normal a) as [Ha1 Ha2].
  destruct (decimal_of_Z_normal b) as [Hb1 Hb2].
  pose proof (NilZero.isi (Z.to_int a) Ha1 Ha2) as Ia.
  pose proof (NilZero.isi (Z.to_int b) Hb1 Hb2) as Ib.
  rewrite H, Ib in Ia. injection Ia as Ia.
  rewrite <- (DecimalZ.of_to a), <- (DecimalZ.of_to b), Ia. reflexivity.
Qed.

Lemma string_length_append (s r : string) :
  String.length (s +:+ r) = (String.length s + String.length r)%nat.
Proof.
  induction s as [| c s IH]; [reflexivity |].
  change (String.length (String c s +:+ r))
    with (S (String.length (s +:+ r))).
  rewrite IH. reflexivity.
Qed.

Lemma string_append_cancel_r (r : string) : forall s1 s2 : string,
  s1 +:+ r = s2 +:+ r -> s1 = s2.
Proof.
  induction s1 as [| c1 s1 IH]; intros [| c2 s2] H.
  - reflexivity.
  - apply (f_equal String.length) in H.
    rewrite !string_length_append in H. cbn [String.length] in H. lia.
  - apply (f_equal String.length) in H.
    rewrite !string_length_append in H. cbn [String.length] in H. lia.
  - change (String c1 (s1 +:+ r) = String c2 (s2 +:+ r)) in H.
    injection H as -> H. f_equal. apply IH, H.
Qed.

(** A status check, with the prefix of its text left open. *)
Lemma check_outcomes_differ (prefix location : string) (code code' : Z)
    (m m' : Machine) :
  code ≠ code' ->
  ((if decide (code ≠ 0) then
      throw (runtime_error
        (prefix +:+ to_string code +:+ " at " +:+ location))
    else mret tt : M unit) m).1 ≠
  ((if decide (code' ≠ 0) then
      throw (runtime_error
        (prefix +:+ to_string code' +:+ " at " +:+ location))
    else mret tt : M unit) m').1.
Proof.
  intros Hne Heq.
  destruct (decide (code ≠ 0)) as [Hc | Hc],
           (decide (code' ≠ 0)) as [Hc' | Hc'];
    unfold throw, mret, M_ret in Heq; cbn [fst] in Heq.
  - injection Heq as Heq.
    apply String.app_inj in Heq. apply string_append_cancel_r in Heq.
    apply Hne, to_string_inj, Heq.
  - discriminate.
  - discriminate.
  - lia.
Qed.

(** X13.  The outcome of a status check tells the status apart: at one
    location, two different status codes never lead to the same outcome,
    for each of the three checks.  The text of the runtime error thus
    loses nothing of the status the device answered. *)
Theorem check_outcome_determines_status (code code' : Z) (location : string)
    (m m' : Machine) :
  code ≠ code' ->
  (checkCUDAError code location m).1 ≠
    (checkCUDAError code' location m').1 /\
  (checkCuSolverError code location m).1 ≠
    (checkCuSolverError code' location m').1 /\
  (checkCuSparseError code location m).1 ≠
    (checkCuSparseError code' location m').1.
Proof.
  intros Hne. split; [| split]; apply check_outcomes_differ, Hne.
Qed.

Lemma check_outcome_determines_status_witness :
  (checkCUDAError 1 "CuSparseSolver.cpp : 147" (fresh_machine CHOLESKY [])).1
  ≠ (checkCUDAError 2 "CuSparseSolver.cpp : 147"
       (fresh_machine CHOLESKY [])).1.
Proof.
  apply (check_outcome_determines_status 1 2 "CuSparseSolver.cpp : 147"
           (fresh_machine CHOLESKY []) (fresh_machine CHOLESKY [])).
  discriminate.
Defined.

End Text_facts.

(* ===================================================================== *)
(** * More on the device stage of [solve]                                 *)
(* ===================================================================== *)

(** One statement that returns, the check after a device call
    included. *)
Ltac go H := step H; try not_failed.

(** The failing allocation of a run: it answers [code]. *)
Ltac malloc_fails Hcode Hne :=
  machine_simpl; rewrite ?bind_assoc;
  etransitivity;
  [ apply bind_Returns, cudaMalloc_failure; machine_simpl;
    rewrite Hcode; exact Hne
  | cbv beta iota ];
  machine_simpl; rewrite Hcode.

(** The failing check of a run. *)
Ltac check_fails lem Hne :=
  machine_simpl; rewrite ?bind_assoc;
  etransitivity; [ apply bind_Throws; apply lem; exact Hne | reflexivity ].

Ltac thrown :=
  machine_simpl; rewrite ?bind_assoc;
  first [ reflexivity | apply bind_Throws; reflexivity ].

Ltac kept :=
  machine_simpl; name_addresses;
  split;
  [ rewrite ?map_size_insert_None
      by (rewrite ?lookup_insert_ne by assumption; assumption);
    cbn [buffers_before]; lia
  | split;
    [ repeat (etransitivity;
              [| apply insert_subseteq;
                 rewrite ?lookup_insert_ne by assumption; assumption ]);
      reflexivity
    | split; [reflexivity |];
      split; [reflexivity |];
      repeat apply suffix_cons_r; reflexivity ] ].

Section More_device_runs.

Variable E : Environment.

Lemma checkCuSparseError_failure code location m :
  code ≠ 0 ->
  checkCuSparseError code location m =
    (Throws (runtime_error
       ("cuSparse error " +:+ to_string code +:+ " at " +:+ location)), m).
Proof.
  intros H. unfold checkCuSparseError, CUSPARSE_STATUS_SUCCESS.
  rewrite decide_True by exact H. reflexivity.
Qed.

(** The device stage of [solve] when its device call number [k] is the
    first that does not answer success. *)
Lemma device_solve_failure (A b AtA : Eigen.Matrix) (m : Machine)
    (k : nat) (code : Z) :
  (k < 14)%nat ->
  device_succeeds E m k ->
  status E (k + calls m) = code -> code ≠ 0 ->
  exists m',
    device_solve E A b AtA m =
      (Throws (runtime_error (device_error_text E k code)), m') /\
    size (heap m') = (size (heap m) + buffers_before k)%nat /\
    heap m ⊆ heap m' /\ this m' = this m /\
    calls m' = (S k + calls m)%nat /\ log m `suffix_of` log m'.
Proof.
  intros Hk H Hcode Hne. unfold device_succeeds in H.
  assert (Hcases : (k = 0 \/ k = 1 \/ k = 2 \/ k = 3 \/ k = 4 \/ k = 5 \/
                    k = 6 \/ k = 7 \/ k = 8 \/ k = 9 \/ k = 10 \/ k = 11 \/
                    k = 12 \/ k = 13)%nat) by lia.
  clear Hk.
  repeat destruct Hcases as [-> | Hcases]; [.. | subst k];
    cbn [Nat.add] in Hcode; cbn [device_error_text]; unfold check_text;
    eexists;
    (split; [unfold device_solve, EigenSparseToCuSparseTranspose |]).
  - do 1 go H. machine_simpl. rewrite Hcode.
    check_fails checkCuSolverError_failure Hne.
  - kept.
  - do 3 go H. machine_simpl. rewrite Hcode.
    check_fails checkCuSparseError_failure Hne.
  - kept.
  - do 5 go H. machine_simpl. rewrite Hcode.
    check_fails checkCuSparseError_failure Hne.
  - kept.
  - do 9 go H. malloc_fails Hcode Hne.
    rewrite (decide_True (P := code ≠ cudaSuccess)) by exact Hne. thrown.
  - kept.
  - do 10 go H. malloc_fails Hcode Hne.
    rewrite (decide_True (P := code ≠ cudaSuccess)) by exact Hne.
    step H. thrown.
  - kept.
  - do 11 go H. malloc_fails Hcode Hne.
    rewrite (decide_True (P := code ≠ cudaSuccess)) by exact Hne.
    do 2 step H. thrown.
  - kept.
  - do 14 go H. machine_simpl. rewrite Hcode.
    check_fails checkCUDAError_failure Hne.
  - kept.
  - do 17 go H. machine_simpl. rewrite Hcode.
    check_fails checkCUDAError_failure Hne.
  - kept.
  - do 20 go H. machine_simpl. rewrite Hcode.
    check_fails checkCUDAError_failure Hne.
  - kept.
  - do 23 go H. malloc_fails Hcode Hne.
    check_fails checkCUDAError_failure Hne.
  - kept.
  - do 25 go H. malloc_fails Hcode Hne.
    check_fails checkCUDAError_failure Hne.
  - kept.
  - do 29 go H. machine_simpl. rewrite Hcode.
    check_fails checkCUDAError_failure Hne.
  - kept.
  - do 34 go H. machine_simpl. rewrite Hcode.
    check_fails checkCuSolverError_failure Hne.
  - kept.
  - do 37 go H. machine_simpl. rewrite Hcode.
    check_fails checkCUDAError_failure Hne.
  - kept.
Qed.

(** The device stage on which every call succeeds: what was asked of the
    device, in order. *)
Lemma device_solve_trace (A b AtA : Eigen.Matrix) (m : Machine) :
  device_succeeds E m 14 ->
  exists (a_row a_col a_val a_x a_b : N) (m' : Machine),
    device_solve E A b AtA m =
      (Returns (chol_singularity E,
                map (chol_x E) (seq 0 (Eigen.cols A))), m') /\
    log m' =
      [ ev_cudaFree (dev a_x) cudaSuccess;
        ev_cudaFree (dev a_b) cudaSuccess;
        ev_cudaFree (dev a_col) cudaSuccess;
        ev_cudaFree (dev a_row) cudaSuccess;
        ev_cudaFree (dev a_val) cudaSuccess;
        ev_cudaMemcpy (dev a_x)
          (size_mul sizeof_double (Z.of_nat (Eigen.cols A)))
          cudaMemcpyDeviceToHost cudaSuccess;
        ev_cusolverSpDcsrlsvchol (Z.of_nat (Eigen.rows AtA))
          (nonZeros E AtA) CUSOLVER_STATUS_SUCCESS;
        ev_cout (dev a_row) (dev a_col) (Eigen.rows AtA) (Eigen.cols AtA);
        ev_cudaMemcpy (dev a_b)
          (size_mul sizeof_double (Z.of_nat (Eigen.cols AtA)))
          cudaMemcpyHostToDevice cudaSuccess;
        ev_cudaMalloc b_gpu
          (size_mul sizeof_double (Z.of_nat (Eigen.cols AtA))) cudaSuccess;
        ev_cudaMalloc x_gpu
          (size_mul sizeof_double (Z.of_nat (Eigen.cols AtA))) cudaSuccess;
        ev_cudaMemcpy (dev a_col)
          (size_mul (to_int (nonZeros E AtA)) sizeof_int)
          cudaMemcpyHostToDevice cudaSuccess;
        ev_cudaMemcpy (dev a_row)
          (size_mul (to_int (Z.of_nat (Eigen.cols AtA) + 1)) sizeof_int)
          cudaMemcpyHostToDevice cudaSuccess;
        ev_cudaMemcpy (dev a_val)
          (size_mul (to_int (nonZeros E AtA)) sizeof_double)
          cudaMemcpyHostToDevice cudaSuccess;
        ev_cudaMalloc AtA_val
          (size_mul sizeof_double (to_int (nonZeros E AtA))) cudaSuccess;
        ev_cudaMalloc AtA_col
          (size_mul sizeof_int (to_int (nonZeros E AtA))) cudaSuccess;
        ev_cudaMalloc AtA_row
          (size_mul sizeof_int (to_int (Z.of_nat (Eigen.cols AtA) + 1)))
          cudaSuccess;
        ev_cusparseSetMatType CUSPARSE_STATUS_SUCCESS;
        ev_cusparseCreateMatDescr CUSPARSE_STATUS_SUCCESS;
        ev_cusolverSpCreate CUSOLVER_STATUS_SUCCESS ] ++ log m /\
    NoDup [a_row; a_col; a_val; a_x; a_b] /\
    (forall a, a ∈ [a_row; a_col; a_val; a_x; a_b] -> heap m !! a = None) /\
    heap m' = heap m /\
    calls m' = (14 + calls m)%nat /\ this m' = this m.
Proof.
  intros H. unfold device_succeeds in H.
  eexists _, _, _, _, _, _. split.
  { unfold device_solve, EigenSparseToCuSparseTranspose.
    do 48 go H. reflexivity. }
  split; [machine_simpl; reflexivity |].
  machine_simpl. name_addresses.
  split; [| split; [| split; [| split; reflexivity]]].
  - repeat (apply NoDup_cons; split;
            [repeat (rewrite not_elem_of_cons; split; [congruence |]);
             apply not_elem_of_nil |]).
    apply NoDup_nil_2.
  - intros a' Hin.
    repeat (apply elem_of_cons in Hin as [-> | Hin]; [assumption |]).
    apply elem_of_nil in Hin. contradiction.
  - apply map_eq; intros k. released.
Qed.

(** Either the next [n] device calls all succeed, or one of them is the
    first to fail. *)
Lemma first_failure (m : Machine) (n : nat) :
  device_succeeds E m n \/
  exists k, (k < n)%nat /\ device_succeeds E m k /\
            status E (k + calls m) ≠ 0.
Proof.
  induction n as [| n [IH | (k & Hk & Hok & Hfail)]].
  - left. intros k Hk. lia.
  - destruct (decide (status E (n + calls m) = 0)) as [Hn | Hn].
    + left. intros k Hk.
      destruct (decide (k = n)) as [-> | Hne]; [exact Hn |].
      apply IH. lia.
    + right. exists n. split; [lia |]. split; assumption.
  - right. exists k. split; [lia |]. split; assumption.
Qed.

Lemma buffers_before_le (k : nat) : (buffers_before k <= 5)%nat.
Proof.
  do 11 (destruct k as [| k]; [cbn [buffers_before]; lia |]).
  cbn [buffers_before]. lia.
Qed.

(** A device stage that returns was answered with success fourteen
    times. *)
Lemma device_solve_Returns_succeeds (A b AtA : Eigen.Matrix)
    (m m' : Machine) r :
  device_solve E A b AtA m = (Returns r, m') ->
  device_succeeds E m 14.
Proof.
  intros Hrun.
  destruct (first_failure m 14) as [Hok | (k & Hk & Hok & Hfail)];
    [exact Hok |].
  destruct (device_solve_failure A b AtA m k _ Hk Hok eq_refl Hfail)
    as (m1 & Hthrow & _).
  rewrite Hthrow in Hrun. discriminate.
Qed.

(** [solve] in CHOLESKY mode on a system with a column: the machine it
    leaves is the one the device stage leaves, and an exception of the
    device stage is the exception of [solve]. *)
Lemma solve_after_device (gfg : GaussianFactorGraph) (m : Machine) :
  solverType (this m) = CHOLESKY ->
  Eigen.cols (sparseJacobianEigen E gfg (ordering (this m))) ≠ 0%nat ->
  let Ab := sparseJacobianEigen E gfg (ordering (this m)) in
  let run := device_solve E (system_matrix Ab) (normal_rhs Ab)
               (normal_matrix Ab) m in
  (solve E gfg m).2 = run.2 /\
  (forall e, run.1 = Throws e -> (solve E gfg m).1 = Throws e) /\
  (forall vv, (solve E gfg m).1 = Returns vv -> exists r, run.1 = Returns r).
Proof.
  intros Htype Hcols Ab run. subst run. unfold solve.
  rewrite (bind_Returns get_this _ m (this m) m eq_refl).
  rewrite Htype. rewrite decide_False by exact Hcols.
  fold Ab. unfold system_matrix, normal_rhs, normal_matrix.
  destruct (normal_equations Ab) as [[A b] AtA]. cbn [fst snd].
  unfold mbind, M_bind.
  destruct (device_solve E A b AtA m) as [[[s x] | e |] m1]; cbn [fst snd].
  - case_decide.
    + unfold throw. cbn [fst snd].
      split; [reflexivity |]. split; [discriminate |]. discriminate.
    + destruct (remap x gfg (ordering (this m)));
        unfold mret, M_ret, abort; cbn [fst snd];
        (split; [reflexivity |]); (split; [discriminate |]); eauto.
  - split; [reflexivity |]. split; [intros e' [= <-]; reflexivity |].
    discriminate.
  - split; [reflexivity |]. split; discriminate.
Qed.

Lemma normal_matrix_shape (Ab : Eigen.Matrix) :
  Eigen.cols (system_matrix Ab) = (Eigen.cols Ab - 1)%nat /\
  Eigen.cols (normal_matrix Ab) = (Eigen.cols Ab - 1)%nat /\
  Eigen.rows (normal_matrix Ab) = (Eigen.cols Ab - 1)%nat.
Proof. split; [| split]; reflexivity. Qed.

Lemma to_int_small (z : Z) : - 2 ^ 31 <= z < 2 ^ 31 -> to_int z = z.
Proof. intros Hz. unfold to_int. rewrite Z.mod_small by lia. lia. Qed.

Lemma size_mul_small (a b : Z) :
  0 <= a * b < 2 ^ 64 -> size_mul a b = a * b.
Proof. intros H. unfold size_mul. apply Z.mod_small, H. Qed.

Lemma HostVar_eqb_refl (v : HostVar) : HostVar_eqb v v = true.
Proof. destruct v; reflexivity. Qed.

Lemma HostVar_eqb_ne (v w : HostVar) : v ≠ w -> HostVar_eqb v w = false.
Proof. destruct v, w; intros H; try reflexivity; destruct (H eq_refl). Qed.

(** X14.  The upload on a device that answers success, for a matrix
    whose sizes fit [int] and three distinct out-parameters: it
    allocates three new buffers, of [4 * (cols + 1)], [4 * nnz] and
    [8 * nnz] bytes, stores their addresses in [*row], [*col] and
    [*val], changes no other pointer variable, copies to each buffer as
    many bytes as it allocated for it, and releases nothing. *)
Theorem upload_success (mat : Eigen.Matrix) (row col val : HostVar)
    (m : Machine) :
  let outer := Z.of_nat (Eigen.cols mat) + 1 in
  let nnz := nonZeros E mat in
  row ≠ col -> row ≠ val -> col ≠ val ->
  outer < 2 ^ 31 -> 0 <= nnz < 2 ^ 31 ->
  device_succeeds E m 6 ->
  exists (a_row a_col a_val : N) (m' : Machine),
    EigenSparseToCuSparseTranspose E mat row col val m = (Returns tt, m') /\
    heap m' =
      <[a_val := 8 * nnz]>
        (<[a_col := 4 * nnz]> (<[a_row := 4 * outer]> (heap m))) /\
    NoDup [a_row; a_col; a_val] /\
    (forall a, a ∈ [a_row; a_col; a_val] -> heap m !! a = None) /\
    stack m' row = dev a_row /\ stack m' col = dev a_col /\
    stack m' val = dev a_val /\
    (forall v, v ≠ row -> v ≠ col -> v ≠ val -> stack m' v = stack m v) /\
    log m' =
      [ ev_cudaMemcpy (dev a_col) (4 * nnz) cudaMemcpyHostToDevice
          cudaSuccess;
        ev_cudaMemcpy (dev a_row) (4 * outer) cudaMemcpyHostToDevice
          cudaSuccess;
        ev_cudaMemcpy (dev a_val) (8 * nnz) cudaMemcpyHostToDevice
          cudaSuccess;
        ev_cudaMalloc val (8 * nnz) cudaSuccess;
        ev_cudaMalloc col (4 * nnz) cudaSuccess;
        ev_cudaMalloc row (4 * outer) cudaSuccess ] ++ log m.
Proof.
  intros outer nnz Hrc Hrv Hcv Houter Hnnz H. unfold device_succeeds in H.
  assert (Hsizes :
    size_mul sizeof_int (to_int outer) = 4 * outer /\
    size_mul sizeof_int (to_int nnz) = 4 * nnz /\
    size_mul sizeof_double (to_int nnz) = 8 * nnz /\
    size_mul (to_int nnz) sizeof_double = 8 * nnz /\
    size_mul (to_int outer) sizeof_int = 4 * outer /\
    size_mul (to_int nnz) sizeof_int = 4 * nnz).
  { assert (0 <= outer) by (subst outer; lia).
    rewrite !to_int_small by lia. unfold sizeof_int, sizeof_double.
    rewrite !size_mul_small by lia. lia. }
  destruct Hsizes as (S1 & S2 & S3 & S4 & S5 & S6).
  eexists _, _, _, _. split.
  { unfold EigenSparseToCuSparseTranspose. fold outer nnz.
    rewrite S1, S2, S3, S4, S5, S6.
    do 11 go H. machine_simpl. rewrite_answers H.
    apply checkCUDAError_success. }
  machine_simpl.
  rewrite !HostVar_eqb_refl.
  rewrite !(HostVar_eqb_ne row col), !(HostVar_eqb_ne row val),
    !(HostVar_eqb_ne col val) by assumption.
  split; [reflexivity |].
  name_addresses.
  split.
  { repeat (apply NoDup_cons; split;
            [repeat (rewrite not_elem_of_cons; split; [congruence |]);
             apply not_elem_of_nil |]).
    apply NoDup_nil_2. }
  split.
  { intros a' Hin.
    repeat (apply elem_of_cons in Hin as [-> | Hin]; [assumption |]).
    apply elem_of_nil in Hin. contradiction. }
  split; [reflexivity |]. split; [reflexivity |]. split; [reflexivity |].
  split; [| reflexivity].
  intros v Hv1 Hv2 Hv3.
  rewrite !(HostVar_eqb_ne v _) by assumption. reflexivity.
Qed.

(** X15.  Whichever of the fourteen device calls of [solve] is the first
    that does not answer success, [solve] throws a runtime error with
    the text of the check that follows that call; none of the later
    allocations, copies and solves is attempted and nothing is released,
    so the buffers allocated before the failing call, from none to five
    of them, are still allocated when the exception leaves [solve]. *)
Theorem solve_device_error (gfg : GaussianFactorGraph) (m : Machine)
    (k : nat) (code : Z) :
  solverType (this m) = CHOLESKY ->
  Eigen.cols (sparseJacobianEigen E gfg (ordering (this m))) ≠ 0%nat ->
  (k < 14)%nat ->
  device_succeeds E m k ->
  status E (k + calls m) = code -> code ≠ 0 ->
  exists m',
    solve E gfg m =
      (Throws (runtime_error (device_error_text E k code)), m') /\
    size (heap m') = (size (heap m) + buffers_before k)%nat /\
    heap m ⊆ heap m' /\
    calls m' = (S k + calls m)%nat.
Proof.
  intros Htype Hcols Hk H Hcode Hne.
  destruct (solve_after_device gfg m Htype Hcols) as (Hm & Hthrow & _).
  set (Ab := sparseJacobianEigen E gfg (ordering (this m))) in *.
  destruct (device_solve_failure (system_matrix Ab) (normal_rhs Ab)
              (normal_matrix Ab) m k code Hk H Hcode Hne)
    as (m' & Hrun & Hsize & Hsub & _ & Hcalls & _).
  rewrite Hrun in Hm, Hthrow. cbn [fst snd] in Hm, Hthrow.
  exists m'. split; [| auto].
  rewrite (surjective_pairing (solve E gfg m)), Hm.
  rewrite (Hthrow _ eq_refl). reflexivity.
Qed.

(** X16.  The calls [solve] makes on a device that answers success, for
    a system whose sizes fit [int]: the three handles calls, five
    allocations, four copies, the Cholesky solve and five releases, in
    this order.  Every copy moves as many bytes as were allocated for
    the buffer it copies to or from; the five buffers are distinct and
    each is released exactly once, after its last use, by a [cudaFree]
    that answers success. *)
Theorem solve_device_protocol (gfg : GaussianFactorGraph) (m : Machine) :
  let Ab := sparseJacobianEigen E gfg (ordering (this m)) in
  let cols_A := (Eigen.cols Ab - 1)%nat in
  let n := Z.of_nat cols_A in
  let nnz := nonZeros E (normal_matrix Ab) in
  solverType (this m) = CHOLESKY ->
  Eigen.cols Ab ≠ 0%nat ->
  n + 1 < 2 ^ 31 -> 0 <= nnz < 2 ^ 31 ->
  device_succeeds E m 14 ->
  exists a_row a_col a_val a_x a_b : N,
    NoDup [a_row; a_col; a_val; a_x; a_b] /\
    (forall a, a ∈ [a_row; a_col; a_val; a_x; a_b] -> heap m !! a = None) /\
    log (solve E gfg m).2 =
      [ ev_cudaFree (dev a_x) cudaSuccess;
        ev_cudaFree (dev a_b) cudaSuccess;
        ev_cudaFree (dev a_col) cudaSuccess;
        ev_cudaFree (dev a_row) cudaSuccess;
        ev_cudaFree (dev a_val) cudaSuccess;
        ev_cudaMemcpy (dev a_x) (8 * n) cudaMemcpyDeviceToHost cudaSuccess;
        ev_cusolverSpDcsrlsvchol n nnz CUSOLVER_STATUS_SUCCESS;
        ev_cout (dev a_row) (dev a_col) cols_A cols_A;
        ev_cudaMemcpy (dev a_b) (8 * n) cudaMemcpyHostToDevice cudaSuccess;
        ev_cudaMalloc b_gpu (8 * n) cudaSuccess;
        ev_cudaMalloc x_gpu (8 * n) cudaSuccess;
        ev_cudaMemcpy (dev a_col) (4 * nnz) cudaMemcpyHostToDevice
          cudaSuccess;
        ev_cudaMemcpy (dev a_row) (4 * (n + 1)) cudaMemcpyHostToDevice
          cudaSuccess;
        ev_cudaMemcpy (dev a_val) (8 * nnz) cudaMemcpyHostToDevice
          cudaSuccess;
        ev_cudaMalloc AtA_val (8 * nnz) cudaSuccess;
        ev_cudaMalloc AtA_col (4 * nnz) cudaSuccess;
        ev_cudaMalloc AtA_row (4 * (n + 1)) cudaSuccess;
        ev_cusparseSetMatType CUSPARSE_STATUS_SUCCESS;
        ev_cusparseCreateMatDescr CUSPARSE_STATUS_SUCCESS;
        ev_cusolverSpCreate CUSOLVER_STATUS_SUCCESS ] ++ log m.
Proof.
  intros Ab cols_A n nnz Htype Hcols Hn Hnnz Hok.
  destruct (solve_after_device gfg m Htype Hcols) as (Hm & _ & _).
  fold Ab in Hm.
  destruct (device_solve_trace (system_matrix Ab) (normal_rhs Ab)
              (normal_matrix Ab) m Hok)
    as (a_row & a_col & a_val & a_x & a_b & m' & Hrun & Hlog & Hnd & Hfresh
        & _).
  exists a_row, a_col, a_val, a_x, a_b.
  split; [exact Hnd |]. split; [exact Hfresh |].
  rewrite Hm, Hrun. cbn [snd]. rewrite Hlog.
  change (Eigen.cols (system_matrix Ab)) with cols_A.
  change (Eigen.cols (normal_matrix Ab)) with cols_A.
  change (Eigen.rows (normal_matrix Ab)) with cols_A.
  fold n nnz.
  assert (0 <= n) by (subst n; lia).
  rewrite !to_int_small by lia.
  unfold sizeof_int, sizeof_double.
  rewrite !size_mul_small by lia.
  rewrite (Z.mul_comm nnz 8), (Z.mul_comm nnz 4), (Z.mul_comm (n + 1) 4).
  reflexivity.
Qed.

(** X17.  A call of [solve] that returns a mapping made every one of
    the fourteen device calls whose status it tests, each was answered
    with success, and the device memory and the solver object are left
    as they were found. *)
Theorem solve_Returns_device (gfg : GaussianFactorGraph) (m m' : Machine)
    (vv : VectorValues) :
  solve E gfg m = (Returns vv, m') ->
  device_succeeds E m 14 /\
  heap m' = heap m /\ this m' = this m /\ calls m' = (14 + calls m)%nat.
Proof.
  intros Hrun.
  assert (Htype : solverType (this m) = CHOLESKY).
  { unfold solve in Hrun.
    rewrite (bind_Returns get_this _ m (this m) m eq_refl) in Hrun.
    destruct (solverType (this m)); [discriminate | reflexivity]. }
  assert (Hcols :
    Eigen.cols (sparseJacobianEigen E gfg (ordering (this m))) ≠ 0%nat).
  { unfold solve in Hrun.
    rewrite (bind_Returns get_this _ m (this m) m eq_refl) in Hrun.
    rewrite Htype in Hrun. case_decide; [discriminate | assumption]. }
  destruct (solve_after_device gfg m Htype Hcols) as (Hm & _ & Hret).
  rewrite Hrun in Hm, Hret. cbn [fst snd] in Hm, Hret.
  destruct (Hret vv eq_refl) as [r Hr].
  set (Ab := sparseJacobianEigen E gfg (ordering (this m))) in *.
  assert (Hdev : device_solve E (system_matrix Ab) (normal_rhs Ab)
                   (normal_matrix Ab) m = (Returns r, m')).
  { rewrite (surjective_pairing (device_solve E _ _ _ m)), Hr, <- Hm.
    reflexivity. }
  pose proof (device_solve_Returns_succeeds _ _ _ _ _ _ Hdev) as Hok.
  split; [exact Hok |].
  destruct (device_solve_trace (system_matrix Ab) (normal_rhs Ab)
              (normal_matrix Ab) m Hok)
    as (? & ? & ? & ? & ? & m2 & Hrun2 & _ & _ & _ & Hheap & Hcalls & Hthis).
  rewrite Hdev in Hrun2. injection Hrun2 as _ ->. auto.
Qed.

(** X18.  What no call of [solve] does, whatever the solver type, the
    graph, the answers of the device and the outcome: it does not change
    the solver object; it releases no device buffer that existed before
    the call; it leaves at most five more buffers allocated than it
    found, and none unless it throws a runtime error; it makes at most
    fourteen device calls other than [cudaFree]; and it erases nothing
    of the record of the calls made before. *)
Theorem solve_frame (gfg : GaussianFactorGraph) (m : Machine) :
  let out := (solve E gfg m).1 in
  let m' := (solve E gfg m).2 in
  this m' = this m /\
  heap m ⊆ heap m' /\
  (size (heap m') <= size (heap m) + 5)%nat /\
  (calls m <= calls m' <= calls m + 14)%nat /\
  log m `suffix_of` log m' /\
  (heap m' = heap m \/ exists what, out = Throws (runtime_error what)).
Proof.
  intros out m'. subst out m'.
  destruct (solverType (this m)) eqn:Htype.
  { unfold solve.
    rewrite (bind_Returns get_this _ m (this m) m eq_refl), Htype.
    cbn [throw fst snd]. repeat split; try reflexivity; try lia. left.
    reflexivity. }
  destruct (decide (Eigen.cols
              (sparseJacobianEigen E gfg (ordering (this m))) = 0%nat))
    as [Hzero | Hcols].
  { unfold solve.
    rewrite (bind_Returns get_this _ m (this m) m eq_refl), Htype.
    rewrite decide_True by exact Hzero.
    cbn [abort fst snd]. repeat split; try reflexivity; try lia. left.
    reflexivity. }
  destruct (solve_after_device gfg m Htype Hcols) as (Hm & Hthrow & _).
  rewrite Hm.
  set (Ab := sparseJacobianEigen E gfg (ordering (this m))) in *.
  destruct (first_failure m 14) as [Hok | (k & Hk & Hok & Hfail)].
  - destruct (device_solve_trace (system_matrix Ab) (normal_rhs Ab)
                (normal_matrix Ab) m Hok)
      as (? & ? & ? & ? & ? & m2 & Hrun & Hlog & _ & _ & Hheap & Hcalls
          & Hthis).
    rewrite Hrun. cbn [fst snd]. rewrite Hheap, Hcalls, Hlog.
    split; [exact Hthis |]. split; [reflexivity |]. split; [lia |].
    split; [lia |]. split; [apply suffix_app_r; reflexivity |].
    left. reflexivity.
  - destruct (device_solve_failure (system_matrix Ab) (normal_rhs Ab)
                (normal_matrix Ab) m k _ Hk Hok eq_refl Hfail)
      as (m2 & Hrun & Hsize & Hsub & Hthis & Hcalls & Hlog).
    rewrite Hrun in Hthrow |- *. cbn [fst snd] in Hthrow |- *.
    pose proof (buffers_before_le k).
    split; [exact Hthis |]. split; [exact Hsub |]. split; [lia |].
    split; [lia |]. split; [exact Hlog |].
    right. eexists. apply Hthrow. reflexivity.
Qed.

End More_device_runs.

(* --------------------------------------------------------------------- *)
(** ** The device stage at concrete inputs                                *)
(* --------------------------------------------------------------------- *)

Lemma upload_success_witness :
  exists (a_row a_col a_val : N) (m' : Machine),
    EigenSparseToCuSparseTranspose (example_environment (fun _ => 0) (-1))
      example_Ab AtA_row AtA_col AtA_val (fresh_machine CHOLESKY []) =
      (Returns tt, m') /\
    heap m' = <[a_val := 0]> (<[a_col := 0]> (<[a_row := 16]> ∅)) /\
    NoDup [a_row; a_col; a_val] /\
    stack m' AtA_row = dev a_row /\ stack m' AtA_col = dev a_col /\
    stack m' AtA_val = dev a_val /\
    stack m' x_gpu = NULL.
Proof.
  destruct (upload_success (example_environment (fun _ => 0) (-1))
              example_Ab AtA_row AtA_col AtA_val (fresh_machine CHOLESKY []))
    as (a_row & a_col & a_val & m' & Hrun & Hheap & Hnd & _ & Hrow & Hcol
        & Hval & Hother & _).
  - discriminate.
  - discriminate.
  - discriminate.
  - reflexivity.
  - split; [discriminate | reflexivity].
  - apply example_device_succeeds.
  - exists a_row, a_col, a_val, m'.
    split; [exact Hrun |]. split; [exact Hheap |]. split; [exact Hnd |].
    split; [exact Hrow |]. split; [exact Hcol |]. split; [exact Hval |].
    apply (Hother x_gpu); discriminate.
Defined.

Lemma solve_device_error_witness :
  exists m',
    solve (example_environment (fail_at 6 7) (-1)) example_graph
      (fresh_machine CHOLESKY [0; 1]%N) =
      (Throws (runtime_error
         (device_error_text (example_environment (fail_at 6 7) (-1)) 6 7)),
       m') /\
    size (heap m') =
      (size (heap (fresh_machine CHOLESKY [0; 1]%N)) + buffers_before 6)%nat /\
    heap (fresh_machine CHOLESKY [0; 1]%N) ⊆ heap m' /\
    calls m' = (7 + calls (fresh_machine CHOLESKY [0; 1]%N))%nat.
Proof.
  apply (solve_device_error (example_environment (fail_at 6 7) (-1))
           example_graph (fresh_machine CHOLESKY [0; 1]%N) 6 7).
  - reflexivity.
  - apply example_cols_nonzero.
  - lia.
  - apply fail_at_device_succeeds.
  - reflexivity.
  - discriminate.
Defined.

(** The same input, evaluated: the first copy of the upload fails; the
    text names line 98, and the three buffers of the upload are still on
    the device heap. *)
Example solve_upload_copy_failure_evaluated :
  let run :=
    solve (example_environment (fail_at 6 7) (-1)) example_graph
      (fresh_machine CHOLESKY [0; 1]%N) in
  run.1 =
    Throws (runtime_error "cudaMalloc error 7 at CuSparseSolver.cpp : 98") /\
  heap run.2 = {[ 0%N := 24; 1%N := 0; 2%N := 0 ]}.
Proof. vm_compute. repeat split. Qed.

Lemma solve_device_protocol_witness :
  exists a_row a_col a_val a_x a_b : N,
    NoDup [a_row; a_col; a_val; a_x; a_b] /\
    log (solve (example_environment (fun _ => 0) (-1)) example_graph
           (fresh_machine CHOLESKY [0; 1]%N)).2 =
      [ ev_cudaFree (dev a_x) 0;
        ev_cudaFree (dev a_b) 0;
        ev_cudaFree (dev a_col) 0;
        ev_cudaFree (dev a_row) 0;
        ev_cudaFree (dev a_val) 0;
        ev_cudaMemcpy (dev a_x) 40 cudaMemcpyDeviceToHost 0;
        ev_cusolverSpDcsrlsvchol 5 0 0;
        ev_cout (dev a_row) (dev a_col) 5 5;
        ev_cudaMemcpy (dev a_b) 40 cudaMemcpyHostToDevice 0;
        ev_cudaMalloc b_gpu 40 0;
        ev_cudaMalloc x_gpu 40 0;
        ev_cudaMemcpy (dev a_col) 0 cudaMemcpyHostToDevice 0;
        ev_cudaMemcpy (dev a_row) 24 cudaMemcpyHostToDevice 0;
        ev_cudaMemcpy (dev a_val) 0 cudaMemcpyHostToDevice 0;
        ev_cudaMalloc AtA_val 0 0;
        ev_cudaMalloc AtA_col 0 0;
        ev_cudaMalloc AtA_row 24 0;
        ev_cusparseSetMatType 0;
        ev_cusparseCreateMatDescr 0;
        ev_cusolverSpCreate 0 ].
Proof.
  destruct (solve_device_protocol (example_environment (fun _ => 0) (-1))
              example_graph (fresh_machine CHOLESKY [0; 1]%N))
    as (a_row & a_col & a_val & a_x & a_b & Hnd & _ & Hlog).
  - reflexivity.
  - apply example_cols_nonzero.
  - vm_compute. reflexivity.
  - split; [discriminate | reflexivity].
  - apply example_device_succeeds.
  - exists a_row, a_col, a_val, a_x, a_b. split; [exact Hnd |].
    rewrite Hlog. vm_compute. reflexivity.
Defined.

Lemma solve_Returns_device_witness :
  exists vv m',
    solve (example_environment (fun _ => 0) (-1)) example_graph
      (fresh_machine CHOLESKY [0; 1]%N) = (Returns vv, m') /\
    device_succeeds (example_environment (fun _ => 0) (-1))
      (fresh_machine CHOLESKY [0; 1]%N) 14 /\
    heap m' = heap (fresh_machine CHOLESKY [0; 1]%N) /\
    this m' = this (fresh_machine CHOLESKY [0; 1]%N) /\
    calls m' = (14 + calls (fresh_machine CHOLESKY [0; 1]%N))%nat.
Proof.
  destruct (solve_Cholesky_run (example_environment (fun _ => 0) (-1))
              example_graph (fresh_machine CHOLESKY [0; 1]%N) eq_refl)
    as (m' & _ & _ & Hrun).
  { apply example_cols_nonzero. }
  { apply example_device_succeeds. }
  rewrite decide_False in Hrun by (intros Hn; exact (Hn eq_refl)).
  assert (Hremap :
    remap (downloaded_x (example_environment (fun _ => 0) (-1)) example_graph
             [0; 1]%N) example_graph [0; 1]%N =
    Some {[ 0%N := [0; 0]%R; 1%N := [0; 0; 0]%R ]})
    by (vm_compute; reflexivity).
  cbn [this fresh_machine CuSparseSolver_new ordering] in Hrun.
  rewrite Hremap in Hrun.
  eexists _, m'. split; [exact Hrun |].
  exact (solve_Returns_device _ _ _ _ _ Hrun).
Defined.
